(** * MindSpark: live audio session, leaderboard and quiz score

    A shallow embedding of the parts of the MindSpark front end that the
    specification makes claims about:

    - [Playback]: the inbound side of [LiveTrivia] (the [onmessage]
      callback): decoding, the playback cursor [nextStartTimeRef], the live
      set [sourcesRef] and interruption handling;
    - [Capture]: the outbound side ([onopen], [processor.onaudioprocess],
      the mute toggle);
    - [Teardown]: the [cleanup] closure of the session effect;
    - [Quiz]: [handleAnswer], [nextQuestion] and [handleSaveScore] of
      [VisualTrivia].

    Times are JavaScript numbers in the source; they are rationals ([Q])
    here.  The sum and the quotient the scheduler computes on them are
    rounded in the source: they are left to a parameter
    ([Playback.Arithmetic]) of which exact arithmetic is one instance.
    Callbacks that mutate refs are state transformers; the [await] inside
    [onmessage] is a suspension point and is modelled as such: a handler
    is the pair of events [OnMessage] and [Settled] of [Playback.step]. *)

From Stdlib Require Import QArith Qminmax ZArith List String Ascii Bool Lia.
From Stdlib Require Import Sorted Permutation Lqa Qround.
Import ListNotations.

(* ================================================================== *)
(** * Decode & schedule pipeline *)
(* ================================================================== *)

Module Playback.

Open Scope Q_scope.

(** A Web Audio [AudioBuffer]: number of sample frames and sample rate.
    Its [duration] attribute is their quotient. *)
Record AudioBuffer : Type := mkBuffer {
  sampleCount : nat;
  sampleRate : positive
}.

(** The arithmetic on JavaScript numbers that the scheduler relies on.
    Times are rationals here and the numbers of the source are among
    them, but sums and quotients of the source are rounded: [add x d] is
    the number that [x + d] gives at line 365, [quotient n r] the number
    the platform reports as the [duration] of a buffer of [n] frames at
    rate [r].  All that is used of them is that adding a non-negative
    number never gives less, that equal numbers have equal sums, and that
    a duration is not negative. *)
Record Arithmetic : Type := mkArithmetic {
  add : Q -> Q -> Q;
  quotient : nat -> positive -> Q;
  add_ge : forall x d : Q, 0 <= d -> x <= add x d;
  add_eq : forall x x' d d' : Q, x == x' -> d == d' -> add x d == add x' d';
  quotient_nonneg : forall (n : nat) (r : positive), 0 <= quotient n r
}.

Definition duration (A : Arithmetic) (b : AudioBuffer) : Q :=
  quotient A (sampleCount b) (sampleRate b).

(** What [onmessage] reads from a [LiveServerMessage]:
    [msg.serverContent?.modelTurn?.parts?.[0]?.inlineData?.data] and
    [msg.serverContent?.interrupted]. *)
Record LiveServerMessage : Type := mkMsg {
  inlineData : option string;
  interrupted : bool
}.

(** JavaScript truthiness of a string: every string but the empty one. *)
Definition truthy (s : string) : bool :=
  match s with
  | EmptyString => false
  | String _ _ => true
  end.

(** One call [source.start(when)]: the node, the start time passed, the
    buffer attached to the node, and the context clock when the call
    was made. *)
Record Started : Type := mkStarted {
  node : nat;
  when : Q;
  buffer : AudioBuffer;
  clock : Q
}.

(** An [onmessage] invocation parked at [await decodeAudioData(...)]: the
    message it was called with and what the decode promise settles to
    ([None]: it rejects). *)
Record Pending : Type := mkPending {
  p_msg : LiveServerMessage;
  p_decoded : option AudioBuffer
}.

Record State : Type := mkState {
  currentTime : Q;            (* ctx.currentTime, the output context clock *)
  audioContextRef : bool;     (* audioContextRef.current is set *)
  nextStartTimeRef : Q;       (* nextStartTimeRef.current *)
  sourcesRef : list nat;      (* sourcesRef.current, in insertion order *)
  fresh : nat;                (* identity of the next created source node *)
  started : list Started;     (* calls of source.start, newest first *)
  stopped : list nat;         (* calls of s.stop(), oldest first *)
  suspended : list Pending    (* handlers waiting on their decode *)
}.

(** [useRef<number>(0)], [useRef(new Set())], and the context created by
    [initSession] before the connection is made. *)
Definition init (t0 : Q) : State :=
  mkState t0 true 0 [] O [] [] [].

Definition set_cursor (c : Q) (s : State) : State :=
  mkState (currentTime s) (audioContextRef s) c (sourcesRef s) (fresh s)
          (started s) (stopped s) (suspended s).

Definition set_suspended (l : list Pending) (s : State) : State :=
  mkState (currentTime s) (audioContextRef s) (nextStartTimeRef s)
          (sourcesRef s) (fresh s) (started s) (stopped s) l.

Section Handlers.

Variable A : Arithmetic.

(** [base64ToUint8Array] and [decodeAudioData] come from
    [services/audioUtils], which is not part of the sources at hand: they
    are parameters.  [None] stands for a call that throws, respectively a
    promise that rejects. *)
Variable base64ToUint8Array : string -> option (list Byte.byte).
Variable decodeAudioData :
  list Byte.byte -> positive -> nat -> option AudioBuffer.

(** [nextStartTimeRef.current =
       Math.max(nextStartTimeRef.current, ctx.currentTime)] *)
Definition sync_timing (s : State) : State :=
  set_cursor (Qmax (nextStartTimeRef s) (currentTime s)) s.

(** The block after the [await]: create the source, attach the buffer,
    [source.start(nextStartTimeRef.current)], advance the cursor by
    [audioBuffer.duration], add the source to the live set. *)
Definition schedule (b : AudioBuffer) (s : State) : State :=
  mkState (currentTime s) (audioContextRef s)
          (add A (nextStartTimeRef s) (duration A b))
          (sourcesRef s ++ [fresh s])
          (S (fresh s))
          (mkStarted (fresh s) (nextStartTimeRef s) b (currentTime s)
             :: started s)
          (stopped s) (suspended s).

(** [sourcesRef.current.forEach(s => s.stop()); sourcesRef.current.clear();
     nextStartTimeRef.current = 0] *)
Definition interrupt (s : State) : State :=
  mkState (currentTime s) (audioContextRef s) 0 [] (fresh s)
          (started s) (stopped s ++ sourcesRef s) (suspended s).

(** [if (msg.serverContent?.interrupted) { ... }] *)
Definition handle_interrupted (msg : LiveServerMessage) (s : State) : State :=
  if interrupted msg then interrupt s else s.

(** [onmessage] up to its [await].  The second component is the parked
    continuation, if the handler reached the [await]. *)
Definition onmessage_begin (msg : LiveServerMessage) (s : State)
  : State * option Pending :=
  match inlineData msg with
  | Some base64Audio =>
      if truthy base64Audio then
        if audioContextRef s then
          let s1 := sync_timing s in
          match base64ToUint8Array base64Audio with
          | None => (s1, None)
          | Some audioBytes =>
              (s1, Some (mkPending msg
                           (decodeAudioData audioBytes 24000%positive 1%nat)))
          end
        else (handle_interrupted msg s, None)
      else (handle_interrupted msg s, None)
  | None => (handle_interrupted msg s, None)
  end.

(** [onmessage] from its [await] to its end. *)
Definition onmessage_resume (p : Pending) (s : State) : State :=
  match p_decoded p with
  | None => s
  | Some audioBuffer => handle_interrupted (p_msg p) (schedule audioBuffer s)
  end.

(** The two halves of [onmessage] back to back: what the handler does
    when nothing else runs while it waits for its decode.  The handler
    itself, with its [await], is the pair of events [OnMessage] and
    [Settled] of [step] below. *)
Definition onmessage (msg : LiveServerMessage) (s : State) : State :=
  match onmessage_begin msg s with
  | (s1, None) => s1
  | (s1, Some p) => onmessage_resume p s1
  end.

(** [source.onended = () => sourcesRef.current.delete(source)] *)
Definition onended (n : nat) (s : State) : State :=
  mkState (currentTime s) (audioContextRef s) (nextStartTimeRef s)
          (filter (fun m => negb (Nat.eqb m n)) (sourcesRef s)) (fresh s)
          (started s) (stopped s) (suspended s).

Definition tick (dt : Q) (s : State) : State :=
  mkState (currentTime s + dt) (audioContextRef s) (nextStartTimeRef s)
          (sourcesRef s) (fresh s) (started s) (stopped s) (suspended s).

(** What can happen on the single JavaScript thread. *)
Inductive Event : Type :=
| Tick (dt : Q)                       (* the audio clock advances *)
| OnMessage (msg : LiveServerMessage) (* a message is delivered *)
| Settled (k : nat)                   (* the k-th parked decode settles *)
| OnEnded (n : nat).                  (* a source finishes playing *)

Fixpoint drop_nth {X : Type} (k : nat) (l : list X) : list X :=
  match k, l with
  | _, [] => []
  | O, _ :: tl => tl
  | S k', x :: tl => x :: drop_nth k' tl
  end.

Definition step (e : Event) (s : State) : State :=
  match e with
  | Tick dt => tick dt s
  | OnMessage msg =>
      match onmessage_begin msg s with
      | (s1, None) => s1
      | (s1, Some p) => set_suspended (suspended s1 ++ [p]) s1
      end
  | Settled k =>
      match nth_error (suspended s) k with
      | None => s
      | Some p => onmessage_resume p (set_suspended (drop_nth k (suspended s)) s)
      end
  | OnEnded n => onended n s
  end.

Definition run (evs : list Event) (s : State) : State :=
  fold_left (fun acc e => step e acc) evs s.

(** A message whose audio part, if any, decodes. *)
Definition payload_ok (msg : LiveServerMessage) : bool :=
  match inlineData msg with
  | Some base64Audio =>
      if truthy base64Audio then
        match base64ToUint8Array base64Audio with
        | None => false
        | Some audioBytes =>
            match decodeAudioData audioBytes 24000%positive 1%nat with
            | None => false
            | Some _ => true
            end
        end
      else true
  | None => true
  end.

(** The buffer a message decodes to, when it carries audio that decodes. *)
Definition decoded (msg : LiveServerMessage) : option AudioBuffer :=
  match inlineData msg with
  | Some base64Audio =>
      if truthy base64Audio then
        match base64ToUint8Array base64Audio with
        | None => None
        | Some audioBytes => decodeAudioData audioBytes 24000%positive 1%nat
        end
      else None
  | None => None
  end.

(** The handler of [msg] enters its audio block in state [s]. *)
Definition has_audio (msg : LiveServerMessage) (s : State) : bool :=
  match inlineData msg with
  | Some base64Audio => truthy base64Audio && audioContextRef s
  | None => false
  end.



(** Neither the event nor a parked handler carries the interrupted flag. *)
Definition uninterrupted (e : Event) : bool :=
  match e with
  | OnMessage msg => negb (interrupted msg)
  | _ => true
  end.

(** Events that leave the scheduler alone: the clock advances, a source
    ends. *)
Definition idle (e : Event) : bool :=
  match e with
  | Tick _ | OnEnded _ => true
  | _ => false
  end.

(** The same, the clock never running backwards. *)
Definition forward (e : Event) : bool :=
  match e with
  | Tick dt => Qle_bool 0 dt
  | OnEnded _ => true
  | _ => false
  end.

(** The clock after a sequence of events, from its value before. *)
Definition clock_after (evs : list Event) (t : Q) : Q :=
  fold_left (fun t e => match e with Tick dt => t + dt | _ => t end) evs t.





(** The handler of [msg] reaches its interruption block with event [e] in
    state [s]: on delivery when it has no audio block to go through, when
    its decode settles otherwise. *)
Definition reaches_interruption (msg : LiveServerMessage) (e : Event)
  (s : State) : Prop :=
  (e = OnMessage msg /\ has_audio msg s = false) \/
  (exists k b, e = Settled k /\
               nth_error (suspended s) k = Some (mkPending msg (Some b))).

(** ** Invariant of an uninterrupted run *)



Definition calm (s : State) : Prop :=
  Forall (fun p => interrupted (p_msg p) = false) (suspended s).

(** ** Basic facts *)

Lemma duration_nonneg : forall b, 0 <= duration A b.
Proof.
  intros b. apply quotient_nonneg.
Qed.



Lemma Forall_drop_nth :
  forall (X : Type) (P : X -> Prop) (k : nat) (l : list X),
    Forall P l -> Forall P (drop_nth k l).
Proof.
  intros X P k l H. revert k.
  induction H as [| x l Hx Hl IH]; intros [| k]; simpl; auto.
Qed.

Lemma nth_error_parked :
  forall (X : Type) (l : list X) (p : X),
    nth_error (l ++ [p]) (List.length l) = Some p.
Proof.
  intros X l p. induction l as [| x l IH]; simpl; [reflexivity | exact IH].
Qed.

Lemma drop_nth_parked :
  forall (X : Type) (l : list X) (p : X),
    drop_nth (List.length l) (l ++ [p]) = l.
Proof.
  intros X l p. induction l as [| x l IH]; simpl; [reflexivity |].
  now rewrite IH.
Qed.

Lemma handle_interrupted_off :
  forall msg s, interrupted msg = false -> handle_interrupted msg s = s.
Proof.
  intros msg s H. unfold handle_interrupted. now rewrite H.
Qed.

Lemma handle_interrupted_on :
  forall msg s, interrupted msg = true -> handle_interrupted msg s = interrupt s.
Proof.
  intros msg s H. unfold handle_interrupted. now rewrite H.
Qed.

Lemma handle_interrupted_started :
  forall msg s, started (handle_interrupted msg s) = started s.
Proof.
  intros msg s. unfold handle_interrupted.
  destruct (interrupted msg); reflexivity.
Qed.

(** What [onmessage] does to a message whose audio decodes. *)
Lemma onmessage_decoded :
  forall s msg b,
    audioContextRef s = true ->
    decoded msg = Some b ->
    onmessage_begin msg s = (sync_timing s, Some (mkPending msg (Some b))) /\
    onmessage msg s = handle_interrupted msg (schedule b (sync_timing s)).
Proof.
  intros s msg b Hctx Hdec.
  unfold onmessage, onmessage_begin, decoded in *.
  destruct (inlineData msg) as [b64 |]; [| discriminate].
  destruct (truthy b64); [| discriminate].
  rewrite Hctx.
  destruct (base64ToUint8Array b64) as [bytes |]; [| discriminate].
  rewrite Hdec. split; reflexivity.
Qed.

(** With no handler parked, a delivery followed at once by the settling
    of its decode is [onmessage] run to completion. *)
Lemma set_suspended_same :
  forall s, set_suspended (suspended s) s = s.
Proof. intros []. reflexivity. Qed.

Lemma onmessage_begin_suspended :
  forall msg s, suspended (fst (onmessage_begin msg s)) = suspended s.
Proof.
  intros msg s. unfold onmessage_begin, handle_interrupted.
  destruct (inlineData msg) as [b64 |];
    [destruct (truthy b64); [destruct (audioContextRef s);
       [destruct (base64ToUint8Array b64) |] |] |];
    simpl; try reflexivity; destruct (interrupted msg); reflexivity.
Qed.

Lemma run_delivery_then_settled :
  forall msg s,
    suspended s = [] ->
    run [OnMessage msg; Settled 0] s = onmessage msg s.
Proof.
  intros msg s Hs. unfold run, onmessage. cbn [fold_left step].
  pose proof (onmessage_begin_suspended msg s) as Hb.
  destruct (onmessage_begin msg s) as [s1 [p |]]; cbn [fst] in Hb.
  - cbn [set_suspended suspended]. rewrite Hb, Hs. cbn [app nth_error drop_nth].
    replace (set_suspended [] (set_suspended [p] s1)) with s1; [reflexivity |].
    rewrite <- (set_suspended_same s1) at 1. rewrite Hb, Hs. reflexivity.
  - rewrite Hb, Hs. reflexivity.
Qed.

Lemma run_events_app :
  forall evs1 evs2 s, run (evs1 ++ evs2) s = run evs2 (run evs1 s).
Proof.
  intros evs1 evs2 s. unfold run. apply fold_left_app.
Qed.

(** ** The two halves of the handler as events *)

(** Delivery of a message whose audio decodes: the timing sync runs and
    the handler is parked behind those already waiting. *)
Lemma step_receive :
  forall s msg b,
    audioContextRef s = true ->
    decoded msg = Some b ->
    step (OnMessage msg) s =
      set_suspended (suspended s ++ [mkPending msg (Some b)]) (sync_timing s).
Proof.
  intros s msg b Hctx Hdec. cbn [step].
  destruct (onmessage_decoded s msg b Hctx Hdec) as [-> _]. reflexivity.
Qed.

(** Delivery of a message whose handler skips the audio block. *)
Lemma step_no_audio :
  forall s msg,
    has_audio msg s = false ->
    step (OnMessage msg) s = handle_interrupted msg s.
Proof.
  intros s msg H. cbn [step]. unfold onmessage_begin, has_audio in *.
  destruct (inlineData msg) as [b64 |]; [| reflexivity].
  destruct (truthy b64); [| reflexivity].
  destruct (audioContextRef s); [discriminate | reflexivity].
Qed.

(** Delivery of a message whose audio does not decode. *)
Lemma step_receive_malformed :
  forall s msg,
    audioContextRef s = true ->
    payload_ok msg = false ->
    step (OnMessage msg) s = sync_timing s \/
    step (OnMessage msg) s =
      set_suspended (suspended s ++ [mkPending msg None]) (sync_timing s).
Proof.
  intros s msg Hctx Hbad. cbn [step].
  unfold onmessage_begin, payload_ok in *.
  destruct (inlineData msg) as [b64 |]; [| discriminate].
  destruct (truthy b64); [| discriminate].
  rewrite Hctx.
  destruct (base64ToUint8Array b64) as [bytes |]; [| now left].
  destruct (decodeAudioData bytes 24000 1); [discriminate | now right].
Qed.

(** The decode of a parked handler settles with a buffer. *)
Lemma step_settle :
  forall s k p b,
    nth_error (suspended s) k = Some p ->
    p_decoded p = Some b ->
    step (Settled k) s =
      handle_interrupted (p_msg p)
        (schedule b (set_suspended (drop_nth k (suspended s)) s)).
Proof.
  intros s k p b Hp Hb. cbn [step]. rewrite Hp.
  unfold onmessage_resume. now rewrite Hb.
Qed.

(** The decode of a parked handler rejects: the handler is gone and
    nothing else has happened. *)
Lemma step_settle_failed :
  forall s k p,
    nth_error (suspended s) k = Some p ->
    p_decoded p = None ->
    step (Settled k) s = set_suspended (drop_nth k (suspended s)) s.
Proof.
  intros s k p Hp Hb. cbn [step]. rewrite Hp.
  unfold onmessage_resume. now rewrite Hb.
Qed.

Lemma step_ctx :
  forall e s, audioContextRef (step e s) = audioContextRef s.
Proof.
  intros [dt | msg | k | n] s; cbn [step]; try reflexivity.
  - unfold onmessage_begin, handle_interrupted.
    destruct (inlineData msg) as [b64 |];
      [destruct (truthy b64); [destruct (audioContextRef s) eqn:Hctx;
         [destruct (base64ToUint8Array b64) |] |] |];
      simpl; try assumption; try reflexivity;
      destruct (interrupted msg); simpl; try assumption; reflexivity.
  - destruct (nth_error (suspended s) k) as [p |]; [| reflexivity].
    unfold onmessage_resume, handle_interrupted.
    destruct (p_decoded p); [| reflexivity].
    destruct (interrupted (p_msg p)); reflexivity.
Qed.

Lemma run_ctx :
  forall evs s, audioContextRef (run evs s) = audioContextRef s.
Proof.
  induction evs as [| e evs IH]; intro s; simpl; [reflexivity |].
  fold (run evs (step e s)). now rewrite IH, step_ctx.
Qed.

(** ** Events that leave the scheduler alone *)

Lemma run_idle :
  forall evs s,
    forallb idle evs = true ->
    run evs s =
      mkState (clock_after evs (currentTime s)) (audioContextRef s)
              (nextStartTimeRef s) (sourcesRef (run evs s)) (fresh s)
              (started s) (stopped s) (suspended s).
Proof.
  induction evs as [| e evs IH]; intros s Hq.
  - now destruct s.
  - simpl in Hq. apply andb_true_iff in Hq. destruct Hq as [He Hevs].
    change (run (e :: evs) s) with (run evs (step e s)).
    rewrite (IH (step e s) Hevs) at 1.
    destruct e as [dt | msg | k | n]; try discriminate He; reflexivity.
Qed.

Lemma run_idle_set_cursor :
  forall evs c s,
    forallb idle evs = true ->
    run evs (set_cursor c s) = set_cursor c (run evs s).
Proof.
  induction evs as [| e evs IH]; intros c s Hq; [reflexivity |].
  simpl in Hq. apply andb_true_iff in Hq. destruct Hq as [He Hevs].
  change (run (e :: evs) (set_cursor c s)) with (run evs (step e (set_cursor c s))).
  change (run (e :: evs) s) with (run evs (step e s)).
  rewrite <- (IH c (step e s) Hevs).
  destruct e as [dt | msg | k | n]; try discriminate He; reflexivity.
Qed.

Lemma run_idle_set_suspended :
  forall evs l s,
    forallb idle evs = true ->
    run evs (set_suspended l s) = set_suspended l (run evs s).
Proof.
  induction evs as [| e evs IH]; intros l s Hq; [reflexivity |].
  simpl in Hq. apply andb_true_iff in Hq. destruct Hq as [He Hevs].
  change (run (e :: evs) (set_suspended l s))
    with (run evs (step e (set_suspended l s))).
  change (run (e :: evs) s) with (run evs (step e s)).
  rewrite <- (IH l (step e s) Hevs).
  destruct e as [dt | msg | k | n]; try discriminate He; reflexivity.
Qed.

Lemma forward_idle :
  forall evs, forallb forward evs = true -> forallb idle evs = true.
Proof.
  induction evs as [| e evs IH]; intro H; [reflexivity |].
  simpl in *. apply andb_true_iff in H. destruct H as [He Hevs].
  rewrite (IH Hevs), andb_true_r.
  destruct e; try discriminate He; reflexivity.
Qed.

Lemma clock_after_forward :
  forall evs t, forallb forward evs = true -> t <= clock_after evs t.
Proof.
  induction evs as [| e evs IH]; intros t H; [apply Qle_refl |].
  simpl in H. apply andb_true_iff in H. destruct H as [He Hevs].
  change (clock_after (e :: evs) t)
    with (clock_after evs (match e with Tick dt => t + dt | _ => t end)).
  destruct e as [dt | msg | k | n]; try discriminate He.
  - apply Qle_bool_iff in He.
    apply Qle_trans with (t + dt); [| now apply IH].
    rewrite <- (Qplus_0_r t) at 1. now apply Qplus_le_r.
  - now apply IH.
Qed.

(** ** The invariant is kept by every step that carries no interruption *)





(** The cursor does not move back in a step that carries no
    interruption. *)
Lemma step_cursor :
  forall e s,
    uninterrupted e = true -> calm s ->
    nextStartTimeRef s <= nextStartTimeRef (step e s) /\ calm (step e s).
Proof.
  intros [dt | msg | k | n] s Hq Hc; simpl in *.
  - split; [apply Qle_refl | exact Hc].
  - apply negb_true_iff in Hq.
    unfold onmessage_begin.
    rewrite (handle_interrupted_off msg s Hq).
    destruct (inlineData msg) as [b64 |];
      [| split; [apply Qle_refl | exact Hc]].
    destruct (truthy b64); [| split; [apply Qle_refl | exact Hc]].
    destruct (audioContextRef s); [| split; [apply Qle_refl | exact Hc]].
    destruct (base64ToUint8Array b64) as [bytes |]; simpl.
    + split; [apply Q.le_max_l |].
      unfold calm in *. simpl. apply Forall_app. split; [exact Hc |].
      constructor; [exact Hq | constructor].
    + split; [apply Q.le_max_l | exact Hc].
  - destruct (nth_error (suspended s) k) as [p |] eqn:Hp;
      [| split; [apply Qle_refl | exact Hc]].
    assert (Hpi : interrupted (p_msg p) = false).
    { unfold calm in Hc. rewrite Forall_forall in Hc.
      apply Hc. eapply nth_error_In; eassumption. }
    assert (Hc' : calm (set_suspended (drop_nth k (suspended s)) s)).
    { unfold calm. simpl. now apply Forall_drop_nth. }
    unfold onmessage_resume.
    destruct (p_decoded p) as [b |]; [| split; [apply Qle_refl | exact Hc']].
    rewrite (handle_interrupted_off _ _ Hpi).
    split; [| exact Hc'].
    simpl. apply add_ge, duration_nonneg.
  - split; [apply Qle_refl | exact Hc].
Qed.

Lemma run_cursor :
  forall evs s,
    forallb uninterrupted evs = true -> calm s ->
    nextStartTimeRef s <= nextStartTimeRef (run evs s).
Proof.
  induction evs as [| e evs IH]; intros s Hq Hc; simpl.
  - apply Qle_refl.
  - simpl in Hq. apply andb_true_iff in Hq. destruct Hq as [He Hevs].
    destruct (step_cursor e s He Hc) as [Hle Hc'].
    eapply Qle_trans; [exact Hle |].
    now apply IH.
Qed.



Lemma sync_timing_fields :
  forall s,
    started (sync_timing s) = started s /\
    sourcesRef (sync_timing s) = sourcesRef s /\
    stopped (sync_timing s) = stopped s /\
    fresh (sync_timing s) = fresh s /\
    currentTime (sync_timing s) = currentTime s /\
    audioContextRef (sync_timing s) = audioContextRef s.
Proof. intro s. repeat split. Qed.

(** The reset forgets the cursor it overwrites. *)
Lemma interrupt_forgets_cursor :
  forall s c, interrupt (set_cursor c s) = interrupt s.
Proof. reflexivity. Qed.

(** A message whose audio does not decode only runs the timing sync. *)
Lemma onmessage_malformed :
  forall s msg,
    audioContextRef s = true ->
    payload_ok msg = false ->
    onmessage msg s = sync_timing s.
Proof.
  intros s msg Hctx Hbad.
  unfold onmessage, onmessage_begin, payload_ok in *.
  destruct (inlineData msg) as [b64 |]; [| discriminate].
  destruct (truthy b64); [| discriminate].
  rewrite Hctx.
  destruct (base64ToUint8Array b64) as [bytes |]; [| reflexivity].
  unfold onmessage_resume. simpl.
  destruct (decodeAudioData bytes 24000 1); [discriminate | reflexivity].
Qed.

Lemma Qmax_absorb :
  forall c t t', t <= t' -> Qmax (Qmax c t) t' == Qmax c t'.
Proof.
  intros c t t' Ht.
  rewrite <- Q.max_assoc.
  rewrite (Q.max_r t t' Ht). reflexivity.
Qed.


(** ** Claims about the scheduling rule *)

(** C1 (as the code has it): when a chunk whose audio decodes to
    [audioBuffer] is received, the cursor is raised to [max(cursor, now)]
    and the handler waits for the decode, nothing being scheduled yet.
    When the decode settles, in whatever state the scheduler then is, the
    buffer is started at the cursor as it then stands, the cursor becomes
    that start plus [d] as line 365 computes the sum, [d] being the
    quotient of [sampleCount] by [sampleRate] as the platform reports it,
    and the source joins the live set.  With nothing between receipt and
    settling the start is [max(cursor, now)] as read on receipt; with no
    interruption in between it is at least that. *)
Theorem chunk_started_at_cursor_when_decode_settles :
  forall (s : State) (chunk : LiveServerMessage) (audioBuffer : AudioBuffer),
    audioContextRef s = true ->
    decoded chunk = Some audioBuffer ->
    let received := step (OnMessage chunk) s in
    let d := quotient A (sampleCount audioBuffer) (sampleRate audioBuffer) in
    nextStartTimeRef received = Qmax (nextStartTimeRef s) (currentTime s) /\
    started received = started s /\
    sourcesRef received = sourcesRef s /\
    suspended received = suspended s ++ [mkPending chunk (Some audioBuffer)] /\
    (forall (s' : State) (k : nat),
        nth_error (suspended s') k = Some (mkPending chunk (Some audioBuffer)) ->
        let s2 :=
          schedule audioBuffer (set_suspended (drop_nth k (suspended s')) s') in
        step (Settled k) s' = handle_interrupted chunk s2 /\
        (interrupted chunk = false -> step (Settled k) s' = s2) /\
        started s2 =
          mkStarted (fresh s') (nextStartTimeRef s') audioBuffer
                    (currentTime s') :: started s' /\
        nextStartTimeRef s2 = add A (nextStartTimeRef s') d /\
        sourcesRef s2 = sourcesRef s' ++ [fresh s']) /\
    started (run [OnMessage chunk; Settled (List.length (suspended s))] s) =
      mkStarted (fresh s) (Qmax (nextStartTimeRef s) (currentTime s))
                audioBuffer (currentTime s) :: started s /\
    (forall (evs : list Event) (k : nat),
        calm s ->
        interrupted chunk = false ->
        forallb uninterrupted evs = true ->
        nth_error (suspended (run evs received)) k =
          Some (mkPending chunk (Some audioBuffer)) ->
        exists e,
          started (step (Settled k) (run evs received)) =
            e :: started (run evs received) /\
          buffer e = audioBuffer /\
          when e = nextStartTimeRef (run evs received) /\
          Qmax (nextStartTimeRef s) (currentTime s) <= when e).
Proof.
  intros s chunk b Hctx Hdec received d.
  assert (Hrec : received =
            set_suspended (suspended s ++ [mkPending chunk (Some b)])
                          (sync_timing s))
    by exact (step_receive s chunk b Hctx Hdec).
  split; [now rewrite Hrec |]. split; [now rewrite Hrec |].
  split; [now rewrite Hrec |]. split; [now rewrite Hrec |].
  split; [| split].
  - intros s' k Hp s2.
    pose proof (step_settle s' k _ b Hp eq_refl) as Hstep.
    cbn [p_msg] in Hstep.
    split; [exact Hstep |].
    split; [intro Hi; rewrite Hstep; now apply handle_interrupted_off |].
    repeat split.
  - change (run [OnMessage chunk; Settled (List.length (suspended s))] s)
      with (step (Settled (List.length (suspended s))) received).
    rewrite Hrec.
    rewrite (step_settle _ _ (mkPending chunk (Some b)) b).
    + now rewrite handle_interrupted_started.
    + cbn [set_suspended suspended]. apply nth_error_parked.
    + reflexivity.
  - intros evs k Hcalm Hni Hq Hp.
    rewrite (step_settle _ k _ b Hp eq_refl), handle_interrupted_started.
    eexists. split; [reflexivity |].
    split; [reflexivity |]. split; [reflexivity |].
    cbn [when].
    apply Qle_trans with (nextStartTimeRef received).
    + rewrite Hrec. apply Qle_refl.
    + apply run_cursor; [exact Hq |].
      rewrite Hrec. unfold calm in *. cbn [set_suspended suspended].
      apply Forall_app. split; [exact Hcalm |].
      constructor; [exact Hni | constructor].
Qed.

(** C2 (as the code has it): whenever the handler of a message carrying
    the interrupted flag reaches its interruption block (on delivery when
    the message has no audio part, when its decode settles otherwise),
    every source that was in the live set, the one the message itself
    scheduled included, has received [stop()], the live set is empty and
    the cursor is 0.  A chunk received next, after the clock has advanced
    and sources have ended, and whose decode settles with nothing in
    between, starts at the clock read on its receipt; a chunk whose decode
    is in flight across the interruption starts at 0 when it settles.  A
    message with the flag whose audio decodes reaches the block; one
    whose audio fails to decode never does: its sources keep playing and
    the cursor is not reset. *)
Theorem interruption_block_flushes_and_resets :
  forall (s : State) (msg : LiveServerMessage),
    interrupted msg = true ->
    (forall e : Event,
        reaches_interruption msg e s ->
        let s' := step e s in
        sourcesRef s' = [] /\
        nextStartTimeRef s' = 0 /\
        (forall n, In n (sourcesRef s) -> In n (stopped s')) /\
        (forall k, e = Settled k ->
                   In (fresh s) (stopped s') /\
                   exists entry,
                     started s' = entry :: started s /\ node entry = fresh s) /\
        (forall (quiet : list Event) (next : LiveServerMessage)
                (b : AudioBuffer),
            audioContextRef s = true ->
            forallb idle quiet = true ->
            decoded next = Some b ->
            0 <= clock_after quiet (currentTime s) ->
            exists entry,
              started (run (quiet ++ [OnMessage next;
                                      Settled (List.length (suspended s'))]) s')
                = entry :: started s' /\
              buffer entry = b /\
              clock entry = clock_after quiet (currentTime s) /\
              when entry == clock entry) /\
        (forall (quiet : list Event) (k : nat) (p : Pending) (b : AudioBuffer),
            forallb idle quiet = true ->
            nth_error (suspended s') k = Some p ->
            p_decoded p = Some b ->
            started (run (quiet ++ [Settled k]) s') =
              mkStarted (fresh s') 0 b (clock_after quiet (currentTime s))
                :: started s')) /\
    (payload_ok msg = true ->
     has_audio msg s = false \/
     exists b,
       suspended (step (OnMessage msg) s) =
         suspended s ++ [mkPending msg (Some b)]) /\
    (audioContextRef s = true ->
     payload_ok msg = false ->
     sourcesRef (step (OnMessage msg) s) = sourcesRef s /\
     stopped (step (OnMessage msg) s) = stopped s /\
     nextStartTimeRef (step (OnMessage msg) s) =
       Qmax (nextStartTimeRef s) (currentTime s) /\
     forall (s' : State) (k : nat),
       nth_error (suspended s') k = Some (mkPending msg None) ->
       step (Settled k) s' = set_suspended (drop_nth k (suspended s')) s').
Proof.
  intros s msg Hi. split; [| split].
  - intros e Hreach s'.
    assert (Hs' : exists s0,
               s' = interrupt s0 /\
               currentTime s0 = currentTime s /\
               audioContextRef s0 = audioContextRef s /\
               (forall n, In n (sourcesRef s) -> In n (sourcesRef s0)) /\
               (forall k, e = Settled k ->
                          In (fresh s) (sourcesRef s0) /\
                          exists entry,
                            started s0 = entry :: started s /\
                            node entry = fresh s)).
    { subst s'. destruct Hreach as [[-> Hno] | (k & b & -> & Hp)].
      - exists s. rewrite (step_no_audio s msg Hno).
        rewrite (handle_interrupted_on _ _ Hi).
        repeat split; auto; discriminate.
      - exists (schedule b (set_suspended (drop_nth k (suspended s)) s)).
        rewrite (step_settle s k _ b Hp eq_refl). cbn [p_msg].
        rewrite (handle_interrupted_on _ _ Hi).
        split; [reflexivity |]. split; [reflexivity |].
        split; [reflexivity |]. split.
        + intros n Hn. simpl. apply in_or_app. now left.
        + intros k' _. split.
          * simpl. apply in_or_app. right. now left.
          * eexists. split; reflexivity. }
    destruct Hs' as (s0 & -> & Hclock & Hctx0 & Hlive & Hown).
    split; [reflexivity |]. split; [reflexivity |].
    split; [| split; [| split]].
    + intros n Hn. simpl. apply in_or_app. right. now apply Hlive.
    + intros k Hk. destruct (Hown k Hk) as [Hin Hentry].
      split; [simpl; apply in_or_app; now right | exact Hentry].
    + intros quiet next b Hctx Hq Hdec Hnow.
      rewrite run_events_app, (run_idle quiet _ Hq).
      cbn [interrupt currentTime audioContextRef nextStartTimeRef fresh
           started stopped suspended].
      rewrite Hclock.
      match goal with
      | |- context [run _ ?st] => set (s1 := st)
      end.
      assert (Hctx1 : audioContextRef s1 = true)
        by (subst s1; cbn [audioContextRef]; now rewrite Hctx0).
      change (run [OnMessage next; Settled (List.length (suspended s0))] s1)
        with (step (Settled (List.length (suspended s0)))
                (step (OnMessage next) s1)).
      rewrite (step_receive s1 next b Hctx1 Hdec).
      rewrite (step_settle _ _ (mkPending next (Some b)) b);
        [| subst s1; cbn [set_suspended suspended]; apply nth_error_parked
         | reflexivity].
      rewrite handle_interrupted_started.
      eexists. split; [reflexivity |].
      subst s1. cbn [buffer clock when].
      split; [reflexivity |]. split; [reflexivity |].
      simpl. apply Q.max_r. exact Hnow.
    + intros quiet k p b Hq Hp Hb.
      rewrite run_events_app, (run_idle quiet _ Hq).
      cbn [interrupt currentTime audioContextRef nextStartTimeRef fresh
           started stopped suspended] in *.
      rewrite Hclock.
      change (run [Settled k] ?st) with (step (Settled k) st).
      rewrite (step_settle _ k p b); [| exact Hp | exact Hb].
      now rewrite handle_interrupted_started.
  - intro Hok. unfold has_audio, payload_ok in *.
    destruct (inlineData msg) as [b64 |] eqn:Hdata; [| now left].
    destruct (truthy b64) eqn:Ht; [| now left].
    destruct (audioContextRef s) eqn:Hctx; [| now left].
    right.
    destruct (base64ToUint8Array b64) as [bytes |] eqn:Hbytes;
      [| discriminate].
    destruct (decodeAudioData bytes 24000 1) as [b |] eqn:Hb;
      [| discriminate].
    exists b. rewrite (step_receive s msg b Hctx); [reflexivity |].
    unfold decoded. now rewrite Hdata, Ht, Hbytes.
  - intros Hctx Hbad.
    destruct (step_receive_malformed s msg Hctx Hbad) as [-> | ->];
      (split; [reflexivity |]; split; [reflexivity |];
       split; [reflexivity |]);
      intros s' k Hp; now apply (step_settle_failed s' k _ Hp).
Qed.


(** ** Decode latency, interruption and failed decodes *)


(** C6 (as the code has it): a chunk whose payload does not decode
    schedules nothing, stops nothing and leaves the live set as it was;
    the cursor has already been raised to [max(cursor, now)] when the
    decode fails, and the rejection of a parked decode only removes the
    handler.  When no decode is in flight as the failed chunk is
    received, the next valid chunk (after the clock has advanced and
    sources have ended, the clock not running backwards) gets the start
    time and leaves the live set and cursor it would have had if the
    failed chunk had never arrived. *)
Theorem malformed_chunk_only_raises_cursor :
  forall (s : State) (msg : LiveServerMessage),
    audioContextRef s = true ->
    payload_ok msg = false ->
    let s1 := step (OnMessage msg) s in
    started s1 = started s /\
    sourcesRef s1 = sourcesRef s /\
    stopped s1 = stopped s /\
    fresh s1 = fresh s /\
    nextStartTimeRef s1 = Qmax (nextStartTimeRef s) (currentTime s) /\
    (suspended s1 = suspended s \/
     suspended s1 = suspended s ++ [mkPending msg None]) /\
    (forall (s' : State) (k : nat),
        nth_error (suspended s') k = Some (mkPending msg None) ->
        step (Settled k) s' = set_suspended (drop_nth k (suspended s')) s') /\
    (suspended s = [] ->
     forall (quiet : list Event) (next : LiveServerMessage) (b : AudioBuffer),
       forallb forward quiet = true ->
       decoded next = Some b ->
       let after_failed :=
         run (OnMessage msg :: Settled 0
                :: quiet ++ [OnMessage next; Settled 0]) s in
       let without := run (quiet ++ [OnMessage next; Settled 0]) s in
       exists e e0,
         started after_failed = e :: started s /\
         started without = e0 :: started s /\
         node e = node e0 /\ buffer e = b /\ buffer e0 = b /\
         clock e = clock e0 /\
         when e == when e0 /\
         when e0 = Qmax (nextStartTimeRef s) (clock_after quiet (currentTime s)) /\
         sourcesRef after_failed = sourcesRef without /\
         stopped after_failed = stopped without /\
         nextStartTimeRef after_failed == nextStartTimeRef without).
Proof.
  intros s msg Hctx Hbad s1. subst s1.
  split; [destruct (step_receive_malformed s msg Hctx Hbad) as [-> | ->];
          reflexivity |].
  split; [destruct (step_receive_malformed s msg Hctx Hbad) as [-> | ->];
          reflexivity |].
  split; [destruct (step_receive_malformed s msg Hctx Hbad) as [-> | ->];
          reflexivity |].
  split; [destruct (step_receive_malformed s msg Hctx Hbad) as [-> | ->];
          reflexivity |].
  split; [destruct (step_receive_malformed s msg Hctx Hbad) as [-> | ->];
          reflexivity |].
  split; [destruct (step_receive_malformed s msg Hctx Hbad) as [-> | ->];
          [now left | now right] |].
  split; [intros s' k Hp; now apply (step_settle_failed s' k _ Hp) |].
  intros Hs quiet next b Hq Hdec after_failed without.
  pose proof (forward_idle quiet Hq) as Hidle.
  assert (Hfirst : run [OnMessage msg; Settled 0] s = sync_timing s).
  { rewrite (run_delivery_then_settled msg s Hs).
    now apply onmessage_malformed. }
  assert (Hafter : after_failed =
            run [OnMessage next; Settled 0] (run quiet (sync_timing s))).
  { subst after_failed.
    change (OnMessage msg :: Settled 0 :: quiet ++ [OnMessage next; Settled 0])
      with ([OnMessage msg; Settled 0] ++ quiet ++ [OnMessage next; Settled 0]).
    now rewrite !run_events_app, Hfirst. }
  assert (Hwithout : without = run [OnMessage next; Settled 0] (run quiet s)).
  { subst without. now rewrite run_events_app. }
  clearbody after_failed without. subst after_failed without.
  unfold sync_timing.
  rewrite (run_idle_set_cursor quiet _ s Hidle).
  pose proof (run_idle quiet s Hidle) as Hrun.
  set (s0 := run quiet s) in *.
  assert (Hs0 : suspended s0 = []) by (rewrite Hrun; exact Hs).
  assert (Hctx0 : audioContextRef s0 = true) by (rewrite Hrun; exact Hctx).
  assert (Hcur0 : nextStartTimeRef s0 = nextStartTimeRef s)
    by (rewrite Hrun; reflexivity).
  assert (Hclk0 : currentTime s0 = clock_after quiet (currentTime s))
    by (rewrite Hrun; reflexivity).
  assert (Hst0 : started s0 = started s) by (rewrite Hrun; reflexivity).
  assert (Hmono : currentTime s <= currentTime s0).
  { rewrite Hclk0. now apply clock_after_forward. }
  set (c := Qmax (nextStartTimeRef s) (currentTime s)) in *.
  rewrite (run_delivery_then_settled next (set_cursor c s0) Hs0).
  rewrite (run_delivery_then_settled next s0 Hs0).
  destruct (onmessage_decoded (set_cursor c s0) next b Hctx0 Hdec) as [_ ->].
  destruct (onmessage_decoded s0 next b Hctx0 Hdec) as [_ ->].
  assert (Hw : Qmax c (currentTime s0)
               == Qmax (nextStartTimeRef s0) (currentTime s0)).
  { subst c. rewrite Hcur0. now apply Qmax_absorb. }
  rewrite !handle_interrupted_started.
  do 2 eexists.
  split; [cbn [schedule sync_timing set_cursor started];
          rewrite Hst0; reflexivity |].
  split; [cbn [schedule sync_timing set_cursor started];
          rewrite Hst0; reflexivity |].
  cbn [node buffer clock when schedule sync_timing set_cursor
       currentTime nextStartTimeRef fresh].
  split; [reflexivity |]. split; [reflexivity |]. split; [reflexivity |].
  split; [reflexivity |]. split; [exact Hw |].
  split; [now rewrite Hcur0, Hclk0 |].
  unfold handle_interrupted. destruct (interrupted next).
  - repeat split; reflexivity.
  - cbn [schedule sync_timing set_cursor sourcesRef stopped nextStartTimeRef
         currentTime fresh].
    split; [reflexivity |]. split; [reflexivity |].
    apply add_eq; [exact Hw | reflexivity].
Qed.

End Handlers.

(** ** Two arithmetics

    The laws asked of an [Arithmetic] hold of exact rational arithmetic,
    and of sums and quotients rounded down to a grid, the way a sum of
    floating-point numbers is rounded to a representable number. *)

Lemma exact_add_ge : forall x d : Q, 0 <= d -> x <= x + d.
Proof.
  intros x d H. rewrite <- (Qplus_0_r x) at 1. now apply Qplus_le_r.
Qed.

Lemma exact_add_eq :
  forall x x' d d' : Q, x == x' -> d == d' -> x + d == x' + d'.
Proof.
  intros x x' d d' Hx Hd. now rewrite Hx, Hd.
Qed.

Lemma exact_quotient_nonneg :
  forall (n : nat) (r : positive), 0 <= Z.of_nat n # r.
Proof.
  intros n r. unfold Qle. simpl. lia.
Qed.

Definition exact_arithmetic : Arithmetic :=
  mkArithmetic Qplus (fun n r => Z.of_nat n # r)
               exact_add_ge exact_add_eq exact_quotient_nonneg.

(** Multiples of [2^-20]. *)
Definition grid : positive := 1048576.

Definition round_down (q : Q) : Q :=
  Qfloor (q * inject_Z (Zpos grid)) # grid.

Definition rounded_add (x d : Q) : Q := Qmax x (round_down (x + d)).

Definition rounded_quotient (n : nat) (r : positive) : Q :=
  Qmax 0 (round_down (Z.of_nat n # r)).

Lemma round_down_eq : forall q q', q == q' -> round_down q == round_down q'.
Proof.
  intros q q' H. unfold round_down.
  assert (E : Qfloor (q * inject_Z (Zpos grid))
              = Qfloor (q' * inject_Z (Zpos grid))).
  { apply Qfloor_comp. now rewrite H. }
  rewrite E. reflexivity.
Qed.

Lemma rounded_add_ge : forall x d : Q, 0 <= d -> x <= rounded_add x d.
Proof.
  intros x d _. apply Q.le_max_l.
Qed.

Lemma rounded_add_eq :
  forall x x' d d' : Q,
    x == x' -> d == d' -> rounded_add x d == rounded_add x' d'.
Proof.
  intros x x' d d' Hx Hd. unfold rounded_add.
  assert (E : round_down (x + d) == round_down (x' + d')).
  { apply round_down_eq. now rewrite Hx, Hd. }
  now apply Q.max_compat.
Qed.

Lemma rounded_quotient_nonneg :
  forall (n : nat) (r : positive), 0 <= rounded_quotient n r.
Proof.
  intros n r. apply Q.le_max_l.
Qed.

Definition rounded_arithmetic : Arithmetic :=
  mkArithmetic rounded_add rounded_quotient
               rounded_add_ge rounded_add_eq rounded_quotient_nonneg.

(** A third of a second is not on the grid: the rounded duration of 8
    frames at 24 Hz is below the exact one. *)
Example rounded_is_not_exact :
  duration exact_arithmetic (mkBuffer 8 24) == 1 # 3 /\
  duration rounded_arithmetic (mkBuffer 8 24) == 349525 # 1048576 /\
  duration rounded_arithmetic (mkBuffer 8 24)
    < duration exact_arithmetic (mkBuffer 8 24).
Proof.
  repeat split.
Qed.

(** ** A concrete decoder, for the examples below

    [services/audioUtils] is not among the sources; these two functions are
    one possible pair of arguments for the parameters above: standard
    base64, and 16-bit PCM (two bytes per sample frame per channel). *)

Definition sextet (c : ascii) : option N :=
  let n := N_of_ascii c in
  if ((65 <=? n) && (n <=? 90))%N then Some (n - 65)%N
  else if ((97 <=? n) && (n <=? 122))%N then Some (n - 71)%N
  else if ((48 <=? n) && (n <=? 57))%N then Some (n + 4)%N
  else if (n =? 43)%N then Some 62%N
  else if (n =? 47)%N then Some 63%N
  else None.

Definition is_pad (c : ascii) : bool := Ascii.eqb c "="%char.

Definition is_nil {A : Type} (l : list A) : bool :=
  match l with [] => true | _ :: _ => false end.

Definition bytes_of (ns : list N) : option (list Byte.byte) :=
  fold_right
    (fun n acc =>
       match Byte.of_N n, acc with
       | Some b, Some l => Some (b :: l)
       | _, _ => None
       end)
    (Some []) ns.

Fixpoint quads (l : list ascii) : option (list N) :=
  match l with
  | [] => Some []
  | a :: b :: c :: d :: tl =>
      match sextet a, sextet b with
      | Some x, Some y =>
          let b0 := (x * 4 + y / 16)%N in
          if is_pad c then
            if is_pad d && is_nil tl then Some [b0] else None
          else
            match sextet c with
            | None => None
            | Some z =>
                let b1 := ((y mod 16) * 16 + z / 4)%N in
                if is_pad d then
                  if is_nil tl then Some [b0; b1] else None
                else
                  match sextet d, quads tl with
                  | Some w, Some rest =>
                      Some (b0 :: b1 :: ((z mod 4) * 64 + w)%N :: rest)
                  | _, _ => None
                  end
            end
      | _, _ => None
      end
  | _ => None
  end.

Definition base64_example (s : string) : option (list Byte.byte) :=
  match quads (list_ascii_of_string s) with
  | None => None
  | Some ns => bytes_of ns
  end.

Definition pcm16_example (bytes : list Byte.byte) (rate : positive)
  (channels : nat) : option AudioBuffer :=
  if Nat.eqb channels 0 then None
  else if Nat.even (List.length bytes)
       then Some (mkBuffer (List.length bytes / 2 / channels) rate)
       else None.

Definition onmessage_example :=
  onmessage exact_arithmetic base64_example pcm16_example.
Definition step_example := step exact_arithmetic base64_example pcm16_example.
Definition run_example := run exact_arithmetic base64_example pcm16_example.
Definition run_rounded := run rounded_arithmetic base64_example pcm16_example.

(** Six bytes of silence: three sample frames at 24 kHz. *)
Definition chunk3 : LiveServerMessage := mkMsg (Some "AAAAAAAA"%string) false.
(** Twelve bytes: six sample frames. *)
Definition chunk6 : LiveServerMessage :=
  mkMsg (Some "AAAAAAAAAAAAAAAA"%string) false.
(** 12000 sample frames, half a second: 24000 bytes, 32000 characters. *)
Definition chunk_half_second : LiveServerMessage :=
  mkMsg (Some (string_of_list_ascii (repeat "A"%char (N.to_nat 32000))))
        false.
(** Not base64. *)
Definition chunk_garbled : LiveServerMessage := mkMsg (Some "!!"%string) false.
(** Base64 of three bytes: an odd number of bytes is not 16-bit PCM. *)
Definition chunk_odd : LiveServerMessage := mkMsg (Some "AAAA"%string) false.
(** The server's interruption signal. *)
Definition signal_interrupted : LiveServerMessage := mkMsg None true.
(** A message with three sample frames of audio and the interrupted flag. *)
Definition chunk3_interrupted : LiveServerMessage :=
  mkMsg (Some "AAAAAAAA"%string) true.
(** A message with the interrupted flag whose audio part is not base64. *)
Definition garbled_interrupted : LiveServerMessage :=
  mkMsg (Some "!!"%string) true.

Example decoded_chunk3 :
  decoded base64_example pcm16_example chunk3 = Some (mkBuffer 3 24000).
Proof. reflexivity. Qed.

Example duration_half_second :
  option_map (duration exact_arithmetic)
    (decoded base64_example pcm16_example chunk_half_second)
  = Some (12000 # 24000).
Proof. vm_compute. reflexivity. Qed.

Example garbled_and_odd_fail :
  payload_ok base64_example pcm16_example chunk_garbled = false /\
  payload_ok base64_example pcm16_example chunk_odd = false.
Proof. split; reflexivity. Qed.

(** Scenario A of the specification: three half-second chunks arriving
    back to back at [t0 = 2] start at 2, 2.5 and 3. *)
Example scenario_A :
  map (fun e => Qred (when e))
    (started
       (onmessage_example chunk_half_second
          (onmessage_example chunk_half_second
             (onmessage_example chunk_half_second (init 2)))))
  = [3; 5 # 2; 2].
Proof. vm_compute. reflexivity. Qed.

(** Scenario B: a half-second chunk at time 2, the next one a second and
    a half later: it starts at 3.5, a full second after the first ended. *)
Example scenario_B :
  map (fun e => Qred (when e))
    (started
       (onmessage_example chunk_half_second
          (tick (3 # 2)
             (onmessage_example chunk_half_second (init 2)))))
  = [7 # 2; 2].
Proof. vm_compute. reflexivity. Qed.

(** ** Instances of the claims *)

(** Two chunks are playing when the next message arrives. *)
Definition two_playing : State :=
  onmessage_example chunk6 (onmessage_example chunk3 (init 2)).

(** Two chunks whose decodes settle out of order, a stall, a third chunk. *)
Definition jittery : list Event :=
  [OnMessage chunk3; OnMessage chunk6; Settled 1; Settled 0;
   Tick 3; OnEnded 0; OnMessage chunk3; Tick (1 # 10); Settled 0].

(** Three chunks, the second received while the first is being decoded,
    each decode settling before the next one. *)
Definition in_order : list Event :=
  [OnMessage chunk3; OnMessage chunk6; Tick (1 # 100); Settled 0; Settled 0;
   Tick 3; OnEnded 0; OnMessage chunk3; Tick (1 # 10); Settled 0].

(** C1, as stated, fails.  A chunk is received at clock 2 by an idle
    scheduler, an interruption is processed while its decode is in
    flight, and the decode settles a quarter of a second later: the
    buffer is started at 0, which is [max(cursor, now)] for no value the
    cursor (never negative) and the clock (at least 2) have had since the
    chunk was received.  Without any interruption: of two chunks received
    at clock 0 with the cursor at 0, the first, whose decode settles
    last, is started at 1/4000, not at [max(0, 0)]. *)
Lemma start_is_not_max_cursor_now :
  (exists e,
      started (run_example [OnMessage chunk3; OnMessage signal_interrupted;
                            Tick (1 # 4); Settled 0] (init 2)) = [e] /\
      buffer e = mkBuffer 3 24000 /\
      when e == 0 /\
      clock e == 9 # 4 /\
      forall cursor now : Q,
        0 <= cursor -> 2 <= now -> ~ when e == Qmax cursor now) /\
  (exists e e',
      started (run_example [OnMessage chunk3; OnMessage chunk6;
                            Settled 1; Settled 0] (init 0)) = [e; e'] /\
      buffer e = mkBuffer 3 24000 /\
      when e == 1 # 4000 /\
      ~ when e == Qmax (nextStartTimeRef (init 0)) (currentTime (init 0)) /\
      ~ when e == Qmax (nextStartTimeRef (init 0)) (clock e)).
Proof.
  split.
  - eexists. split; [vm_compute; reflexivity |].
    cbn [buffer when clock].
    split; [reflexivity |]. split; [reflexivity |]. split; [reflexivity |].
    intros cursor now _ Hnow H.
    assert (Hle : now <= 0).
    { rewrite H. apply Q.le_max_r. }
    assert (Hbad : 2 <= 0) by (eapply Qle_trans; eassumption).
    vm_compute in Hbad. now apply Hbad.
  - do 2 eexists. split; [vm_compute; reflexivity |].
    cbn [buffer when clock].
    split; [reflexivity |]. split; [reflexivity |].
    split; intro H; vm_compute in H; discriminate H.
Qed.

Lemma chunk_started_at_cursor_when_decode_settles_witness :
  audioContextRef two_playing = true /\
  decoded base64_example pcm16_example chunk3 = Some (mkBuffer 3 24000) /\
  started (run_example [OnMessage chunk3; Settled 0] two_playing)
  = mkStarted 2 (Qmax (nextStartTimeRef two_playing) (currentTime two_playing))
              (mkBuffer 3 24000) (currentTime two_playing)
      :: started two_playing /\
  map (fun e => Qred (when e))
    (started (run_example [OnMessage chunk3; Settled 0] two_playing))
  = [16003 # 8000; 16001 # 8000; 2].
Proof.
  split; [reflexivity | split; [reflexivity |]].
  destruct (chunk_started_at_cursor_when_decode_settles
              exact_arithmetic base64_example pcm16_example
              two_playing chunk3 (mkBuffer 3 24000) eq_refl eq_refl)
    as (_ & _ & _ & _ & _ & Hlog & _).
  split; [exact Hlog |].
  vm_compute. reflexivity.
Defined.

(** C2, as stated, fails.  With two chunks playing at clock 2, a third is
    received and the interruption is processed while its decode is in
    flight: the next buffer scheduled after the interruption is that
    chunk's, it is started at 0 and not at the clock, and it is in the
    live set again.  A message that carries the flag together with audio
    that does not decode stops nothing and resets nothing. *)
Lemma chunk_in_flight_is_not_started_at_now :
  (exists e,
      started (run_example [OnMessage chunk3; OnMessage signal_interrupted;
                            Settled 0] two_playing)
        = e :: started two_playing /\
      when e == 0 /\
      clock e == 2 /\
      ~ when e == clock e /\
      sourcesRef (run_example [OnMessage chunk3; OnMessage signal_interrupted;
                               Settled 0] two_playing) = [2%nat]) /\
  interrupted garbled_interrupted = true /\
  sourcesRef (run_example [OnMessage garbled_interrupted; Settled 0] two_playing)
    = [0%nat; 1%nat] /\
  stopped (run_example [OnMessage garbled_interrupted; Settled 0] two_playing)
    = [] /\
  ~ nextStartTimeRef
      (run_example [OnMessage garbled_interrupted; Settled 0] two_playing) == 0.
Proof.
  split.
  - eexists. split; [vm_compute; reflexivity |].
    cbn [when clock].
    split; [reflexivity |]. split; [reflexivity |].
    split; [intro H; vm_compute in H; discriminate H |].
    vm_compute. reflexivity.
  - split; [reflexivity |].
    split; [vm_compute; reflexivity |].
    split; [vm_compute; reflexivity |].
    intro H. vm_compute in H. discriminate H.
Qed.

Lemma interruption_block_flushes_and_resets_witness :
  interrupted signal_interrupted = true /\
  sourcesRef two_playing = [0%nat; 1%nat] /\
  sourcesRef (step_example (OnMessage signal_interrupted) two_playing) = [] /\
  nextStartTimeRef (step_example (OnMessage signal_interrupted) two_playing)
    = 0 /\
  In 1%nat (stopped (step_example (OnMessage signal_interrupted) two_playing)) /\
  (exists entry,
      started (run_example
                 ([Tick 3; OnEnded 0] ++ [OnMessage chunk3; Settled 0])
                 (step_example (OnMessage signal_interrupted) two_playing))
        = entry :: started two_playing /\
      when entry == 5) /\
  interrupted chunk3_interrupted = true /\
  stopped (step_example (Settled 0)
             (step_example (OnMessage chunk3_interrupted) two_playing))
    = [0%nat; 1%nat; 2%nat].
Proof.
  split; [reflexivity | split; [reflexivity |]].
  destruct (interruption_block_flushes_and_resets
              exact_arithmetic base64_example pcm16_example
              two_playing signal_interrupted eq_refl)
    as (Hblock & _ & _).
  destruct (Hblock (OnMessage signal_interrupted)
              (or_introl (conj eq_refl eq_refl)))
    as (Hlive & Hcursor & Hstop & _ & Hnext & _).
  split; [exact Hlive |]. split; [exact Hcursor |].
  split; [apply Hstop; right; left; reflexivity |].
  split.
  - destruct (Hnext [Tick 3; OnEnded 0%nat] chunk3 (mkBuffer 3 24000)
                eq_refl eq_refl eq_refl)
      as (entry & Hlog & _ & Hclock & Hwhen).
    + vm_compute. discriminate.
    + exists entry. split; [exact Hlog |].
      rewrite Hwhen, Hclock. vm_compute. reflexivity.
  - split; [reflexivity |].
    destruct (interruption_block_flushes_and_resets
                exact_arithmetic base64_example pcm16_example
                (step_example (OnMessage chunk3_interrupted) two_playing)
                chunk3_interrupted eq_refl)
      as (Hblock' & _ & _).
    destruct (Hblock' (Settled 0)
                (or_intror (ex_intro _ 0%nat
                   (ex_intro _ (mkBuffer 3 24000) (conj eq_refl eq_refl)))))
      as (_ & _ & _ & _).
    vm_compute. reflexivity.
Defined.



(** The starts of that run in exact and in rounded arithmetic, newest
    first, and the buffers of the run in which decodes settle in order. *)
Example starts_exact_and_rounded :
  map (fun e => Qred (when e)) (started (run_example jittery (init 0)))
  = [3; 1 # 4000; 0] /\
  map (fun e => Qred (when e)) (started (run_rounded jittery (init 0)))
  = [3; 131 # 524288; 0] /\
  map buffer (rev (started (run_example in_order (init 0))))
  = [mkBuffer 3 24000; mkBuffer 6 24000; mkBuffer 3 24000].
Proof.
  repeat split; vm_compute; reflexivity.
Qed.




(** C6, as stated, fails: a chunk that does not decode, received at time 5
    by an idle scheduler, leaves the cursor at 5 instead of 0, whether the
    base64 text is garbled or the bytes are not PCM. *)
Lemma malformed_chunk_moves_cursor :
  payload_ok base64_example pcm16_example chunk_garbled = false /\
  payload_ok base64_example pcm16_example chunk_odd = false /\
  nextStartTimeRef (init 5) = 0 /\
  nextStartTimeRef (onmessage_example chunk_garbled (init 5)) = 5 /\
  nextStartTimeRef (onmessage_example chunk_odd (init 5)) = 5 /\
  onmessage_example chunk_garbled (init 5) <> init 5 /\
  ~ nextStartTimeRef (onmessage_example chunk_garbled (init 5))
    == nextStartTimeRef (init 5) /\
  run_example [OnMessage chunk_odd; Settled 0] (init 5)
    = onmessage_example chunk_odd (init 5) /\
  run_example [OnMessage chunk_garbled] (init 5)
    = onmessage_example chunk_garbled (init 5).
Proof.
  do 5 (split; [reflexivity |]).
  split; [| split; [| split; reflexivity]].
  - intro H. apply (f_equal nextStartTimeRef) in H. vm_compute in H.
    discriminate H.
  - intro H. vm_compute in H. discriminate H.
Qed.

Lemma malformed_chunk_only_raises_cursor_witness :
  audioContextRef two_playing = true /\
  payload_ok base64_example pcm16_example chunk_odd = false /\
  started (step_example (OnMessage chunk_odd) two_playing)
    = started two_playing /\
  sourcesRef (step_example (OnMessage chunk_odd) two_playing)
    = [0%nat; 1%nat] /\
  suspended two_playing = [] /\
  forallb forward [Tick 1; OnEnded 0] = true /\
  exists e,
    started (run_example
               (OnMessage chunk_odd :: Settled 0
                  :: [Tick 1; OnEnded 0] ++ [OnMessage chunk3; Settled 0])
               two_playing)
      = e :: started two_playing /\
    when e == 3.
Proof.
  do 2 (split; [reflexivity |]).
  destruct (malformed_chunk_only_raises_cursor
              exact_arithmetic base64_example pcm16_example
              two_playing chunk_odd eq_refl eq_refl)
    as (Hlog & Hlive & _ & _ & _ & _ & _ & Hnext).
  split; [exact Hlog |].
  split; [unfold step_example; rewrite Hlive; reflexivity |].
  split; [reflexivity |]. split; [reflexivity |].
  destruct (Hnext eq_refl [Tick 1; OnEnded 0%nat] chunk3 (mkBuffer 3 24000)
              eq_refl eq_refl)
    as (e & e0 & Hl & _ & _ & _ & _ & _ & Hw & Hw0 & _).
  exists e. split; [exact Hl |].
  rewrite Hw, Hw0. vm_compute. reflexivity.
Defined.

(** With a decode in flight the failed chunk is not without effect on
    the chunks behind it.  A chunk is received at clock 0 and is still
    being decoded when, half a second later, a chunk that does not decode
    arrives: the chunk in flight then starts at 1/2 instead of 0, and a
    chunk received at that moment at 1/2 + 1/8000 instead of 1/2. *)
Example failed_chunk_delays_chunks_when_a_decode_is_in_flight :
  map (fun e => Qred (when e))
    (started (run_example
                [OnMessage chunk3; Tick (1 # 2); OnMessage chunk_odd;
                 Settled 1; Settled 0; OnMessage chunk6; Settled 0]
                (init 0)))
  = [4001 # 8000; 1 # 2] /\
  map (fun e => Qred (when e))
    (started (run_example
                [OnMessage chunk3; Tick (1 # 2);
                 Settled 0; OnMessage chunk6; Settled 0]
                (init 0)))
  = [1 # 2; 0].
Proof.
  split; vm_compute; reflexivity.
Qed.

End Playback.

(* ================================================================== *)
(** * Capture pipeline and transport session *)
(* ================================================================== *)

Module Capture.

(** One [onaudioprocess] input buffer ([e.inputBuffer.getChannelData(0)]). *)
Definition Frame : Type := list Q.

(** The media blob handed to [sendRealtimeInput]. *)
Record Blob : Type := mkBlob {
  mimeType : string;
  blob_data : string
}.

(** One entry of [clientContent.turns]: [{role, parts: [{text}]}]. *)
Record Turn : Type := mkTurn {
  role : string;
  text : string
}.

(** The two calls the component makes on the session. *)
Inductive Outbound : Type :=
| send (turns : list Turn) (turnComplete : bool)
| sendRealtimeInput (media : Blob).

Record State : Type := mkState {
  micActive : bool;             (* the state variable, latest render *)
  micActiveRef : bool;          (* micActiveRef.current *)
  scope_micActive : bool;       (* [micActive] in the scope of the render
                                   whose effect built the session *)
  connected : bool;
  onaudioprocess_set : bool;    (* processor.onaudioprocess is assigned *)
  session : bool;               (* sessionPromise has resolved *)
  thens : list Outbound;        (* callbacks waiting on sessionPromise *)
  sent : list Outbound;         (* calls made on the session, in order *)
  inputAnalyser : list Frame    (* frames that went through the analyser *)
}.

(** The component after its first render and the start of [initSession]:
    [useState(true)]; the effect closes over that render's [micActive]. *)
Definition mounted : State :=
  mkState true true true false false false [] [] [].

Definition start_turn : Outbound :=
  send [mkTurn "user"
          "The show is starting. Introduce yourself and ask the first question now."]
       true.

(** [sessionPromise.then(session => call)]: run at once (as a microtask)
    when the promise has resolved, queued behind the earlier callbacks
    otherwise. *)
Definition sessionPromise_then (call : Outbound) (s : State) : State :=
  if session s
  then mkState (micActive s) (micActiveRef s) (scope_micActive s)
               (connected s) (onaudioprocess_set s) (session s)
               (thens s) (sent s ++ [call]) (inputAnalyser s)
  else mkState (micActive s) (micActiveRef s) (scope_micActive s)
               (connected s) (onaudioprocess_set s) (session s)
               (thens s ++ [call]) (sent s) (inputAnalyser s).

(** The promise returned by [ai.live.connect] resolves: the queued
    callbacks run in the order they were registered. *)
Definition resolve (s : State) : State :=
  mkState (micActive s) (micActiveRef s) (scope_micActive s)
          (connected s) (onaudioprocess_set s) true
          [] (sent s ++ thens s) (inputAnalyser s).

(** [onClick={() => setMicActive(!micActive)}], the render that follows,
    and the effect [micActiveRef.current = micActive].  The session effect
    depends on [topic, difficulty, personality] only and is not run again. *)
Definition toggleMic (s : State) : State :=
  mkState (negb (micActive s)) (negb (micActive s)) (scope_micActive s)
          (connected s) (onaudioprocess_set s) (session s)
          (thens s) (sent s) (inputAnalyser s).

Section Handlers.

(** [createPcmBlob] is part of [services/audioUtils]: a parameter. *)
Variable createPcmBlob : Frame -> Blob.

(** The [onopen] callback. *)
Definition onopen (s : State) : State :=
  let s1 := mkState (micActive s) (micActiveRef s) (scope_micActive s)
                    true (onaudioprocess_set s) (session s)
                    (thens s) (sent s) (inputAnalyser s) in
  let s2 := sessionPromise_then start_turn s1 in
  mkState (micActive s2) (micActiveRef s2) (scope_micActive s2)
          (connected s2) true (session s2)
          (thens s2) (sent s2) (inputAnalyser s2).

(** The function assigned to [processor.onaudioprocess]; its [micActive]
    is the one of the scope it was created in. *)
Definition onaudioprocess (inputData : Frame) (s : State) : State :=
  if negb (scope_micActive s) then s
  else sessionPromise_then (sendRealtimeInput (createPcmBlob inputData)) s.

(** The audio graph delivers one buffer:
    [source -> inputAnalyser -> processor -> destination].  The analyser
    sees it on the way to the processor, whose handler runs if assigned. *)
Definition capture (f : Frame) (s : State) : State :=
  let s1 := mkState (micActive s) (micActiveRef s) (scope_micActive s)
                    (connected s) (onaudioprocess_set s) (session s)
                    (thens s) (sent s) (inputAnalyser s ++ [f]) in
  if onaudioprocess_set s1 then onaudioprocess f s1 else s1.

Inductive Event : Type :=
| Open
| Resolve
| ToggleMic
| AudioProcess (f : Frame).

Definition step (e : Event) (s : State) : State :=
  match e with
  | Open => onopen s
  | Resolve => resolve s
  | ToggleMic => toggleMic s
  | AudioProcess f => capture f s
  end.

Definition run (evs : list Event) (s : State) : State :=
  fold_left (fun acc e => step e acc) evs s.

(** Everything handed to the session so far, made or still queued. *)
Definition outbound (s : State) : list Outbound := sent s ++ thens s.

Definition not_open (e : Event) : bool :=
  match e with
  | Open => false
  | _ => true
  end.

Definition is_blob (o : Outbound) : bool :=
  match o with
  | sendRealtimeInput _ => true
  | send _ _ => false
  end.

(** ** Facts about the outbound queue *)

(** Once the promise has resolved nothing waits on it. *)
Definition drained (s : State) : Prop := session s = true -> thens s = [].

Lemma then_outbound :
  forall call s,
    drained s ->
    outbound (sessionPromise_then call s) = outbound s ++ [call] /\
    drained (sessionPromise_then call s) /\
    session (sessionPromise_then call s) = session s /\
    onaudioprocess_set (sessionPromise_then call s) = onaudioprocess_set s /\
    scope_micActive (sessionPromise_then call s) = scope_micActive s.
Proof.
  intros call s Hd. unfold outbound, sessionPromise_then, drained in *.
  destruct (session s) eqn:Hs; simpl.
  - rewrite (Hd eq_refl), !app_nil_r. repeat split; auto.
  - rewrite app_assoc. repeat split; auto. discriminate.
Qed.

Lemma step_drained : forall e s, drained s -> drained (step e s).
Proof.
  intros [| | | f] s Hd; simpl.
  - unfold onopen.
    set (s1 := mkState _ _ _ true _ _ _ _ _).
    assert (H1 : drained s1) by exact Hd.
    destruct (then_outbound start_turn s1 H1) as (_ & H & _).
    exact H.
  - intros _. reflexivity.
  - exact Hd.
  - unfold capture. cbn [onaudioprocess_set].
    set (s1 := mkState _ _ _ _ _ _ _ _ (inputAnalyser s ++ [f])).
    assert (H1 : drained s1) by exact Hd.
    destruct (onaudioprocess_set s); [| exact H1].
    unfold onaudioprocess.
    destruct (negb (scope_micActive s1)); [exact H1 |].
    destruct (then_outbound (sendRealtimeInput (createPcmBlob f)) s1 H1)
      as (_ & H & _).
    exact H.
Qed.

Lemma run_drained : forall evs s, drained s -> drained (run evs s).
Proof.
  induction evs as [| e evs IH]; intros s Hd; simpl; [exact Hd |].
  apply IH, step_drained, Hd.
Qed.

Lemma run_app : forall evs1 evs2 s, run (evs1 ++ evs2) s = run evs2 (run evs1 s).
Proof. intros. unfold run. apply fold_left_app. Qed.

(** Before [onopen] no handler is installed and nothing is handed to the
    session. *)
Lemma silent_before_open :
  forall evs s,
    forallb not_open evs = true ->
    onaudioprocess_set s = false ->
    outbound (run evs s) = outbound s /\
    onaudioprocess_set (run evs s) = false.
Proof.
  induction evs as [| e evs IH]; intros s Hno Hset; simpl; [now split |].
  simpl in Hno. apply andb_true_iff in Hno. destruct Hno as [He Hevs].
  assert (Hstep : outbound (step e s) = outbound s /\
                  onaudioprocess_set (step e s) = false).
  { destruct e as [| | | f]; simpl in He; try discriminate He; simpl.
    - split; [| exact Hset]. unfold outbound. simpl.
      now rewrite app_nil_r.
    - now split.
    - unfold capture. cbn [onaudioprocess_set]. rewrite Hset. now split. }
  destruct Hstep as [Ho Hs].
  destruct (IH (step e s) Hevs Hs) as [Ho' Hs'].
  split; [congruence | exact Hs'].
Qed.

(** Apart from [onopen], only media blobs are handed to the session. *)
Lemma only_blobs_after_open :
  forall evs s,
    forallb not_open evs = true ->
    drained s ->
    exists frames,
      outbound (run evs s) = outbound s ++ map sendRealtimeInput frames.
Proof.
  induction evs as [| e evs IH]; intros s Hno Hd; simpl.
  - exists []. simpl. now rewrite app_nil_r.
  - simpl in Hno. apply andb_true_iff in Hno. destruct Hno as [He Hevs].
    assert (Hstep : exists fs,
               outbound (step e s) = outbound s ++ map sendRealtimeInput fs).
    { destruct e as [| | | f]; simpl in He; try discriminate He; simpl.
      - exists []. unfold outbound. simpl. reflexivity.
      - exists []. simpl. now rewrite app_nil_r.
      - unfold capture. cbn [onaudioprocess_set].
        set (s1 := mkState _ _ _ _ _ _ _ _ (inputAnalyser s ++ [f])).
        assert (H1 : drained s1) by exact Hd.
        assert (Ho1 : outbound s1 = outbound s) by reflexivity.
        destruct (onaudioprocess_set s).
        + unfold onaudioprocess.
          destruct (negb (scope_micActive s1)).
          * exists []. simpl. now rewrite app_nil_r.
          * destruct (then_outbound (sendRealtimeInput (createPcmBlob f))
                        s1 H1) as (H & _).
            exists [createPcmBlob f]. now rewrite H, Ho1.
        + exists []. simpl. now rewrite app_nil_r. }
    destruct Hstep as [fs Hfs].
    destruct (IH (step e s) Hevs (step_drained e s Hd)) as [fs' Hfs'].
    exists (fs ++ fs'). rewrite Hfs', Hfs, map_app, app_assoc. reflexivity.
Qed.

Lemma session_stays : forall e s, session s = true -> session (step e s) = true.
Proof.
  intros [| | | f] s Hs; simpl; auto.
  - unfold onopen, sessionPromise_then. simpl. now rewrite Hs.
  - unfold capture. cbn [onaudioprocess_set].
    destruct (onaudioprocess_set s); [| exact Hs].
    unfold onaudioprocess. cbn [scope_micActive].
    destruct (negb (scope_micActive s)); [exact Hs |].
    unfold sessionPromise_then. simpl. now rewrite Hs.
Qed.

Lemma resolved_after :
  forall evs s,
    session s = true \/ In Resolve evs -> session (run evs s) = true.
Proof.
  induction evs as [| e evs IH]; intros s H; simpl.
  - destruct H as [H | []]. exact H.
  - apply IH. destruct H as [H | [H | H]].
    + left. now apply session_stays.
    + left. subst e. reflexivity.
    + now right.
Qed.

(** ** Claims about the outbound side *)

(** C8: nothing is handed to the session before the connection opens;
    [onopen] hands it one call of [send] with a single turn of role
    [user] whose text is the start signal, and [turnComplete: true];
    whatever follows, that call stays the first on the session and every
    later call is a media blob, so it is made exactly once and before any
    blob.  Once [sessionPromise] has resolved the calls have been made in
    that order. *)
Theorem start_turn_sent_first_once :
  forall before after : list Event,
    forallb not_open before = true ->
    forallb not_open after = true ->
    outbound (run before mounted) = [] /\
    outbound (run (before ++ [Open]) mounted)
      = [send [mkTurn "user"
                 "The show is starting. Introduce yourself and ask the first question now."]
              true] /\
    exists frames,
      outbound (run (before ++ Open :: after) mounted)
        = send [mkTurn "user"
                  "The show is starting. Introduce yourself and ask the first question now."]
               true
            :: map sendRealtimeInput frames /\
      (In Resolve (before ++ after) ->
       sent (run (before ++ Open :: after) mounted)
         = send [mkTurn "user"
                   "The show is starting. Introduce yourself and ask the first question now."]
                true
             :: map sendRealtimeInput frames).
Proof.
  intros before after Hb Ha.
  change (send [mkTurn "user"
                  "The show is starting. Introduce yourself and ask the first question now."]
               true) with start_turn.
  destruct (silent_before_open before mounted Hb eq_refl) as [Hout Hset].
  assert (Hd : drained (run before mounted)).
  { apply run_drained. intro H. reflexivity. }
  assert (Hopen : outbound (onopen (run before mounted)) = [start_turn]).
  { unfold onopen.
    set (s1 := mkState _ _ _ true _ _ _ _ _).
    assert (H1 : drained s1) by exact Hd.
    destruct (then_outbound start_turn s1 H1) as (H & _).
    unfold outbound in *. simpl. simpl in H. rewrite H.
    change (sent s1 ++ thens s1) with
      (sent (run before mounted) ++ thens (run before mounted)).
    now rewrite Hout. }
  split; [exact Hout |].
  split; [rewrite run_app; exact Hopen |].
  assert (Hd' : drained (onopen (run before mounted))).
  { exact (step_drained Open _ Hd). }
  destruct (only_blobs_after_open after _ Ha Hd') as [frames Hfr].
  exists frames.
  assert (Hall : outbound (run (before ++ Open :: after) mounted)
                 = start_turn :: map sendRealtimeInput frames).
  { rewrite run_app. simpl. rewrite Hfr, Hopen. reflexivity. }
  split; [exact Hall |].
  intro Hin.
  assert (Hs : session (run (before ++ Open :: after) mounted) = true).
  { apply resolved_after. right.
    apply in_app_or in Hin. apply in_or_app.
    destruct Hin as [H | H]; [now left | right; now right]. }
  assert (Hdr : drained (run (before ++ Open :: after) mounted)).
  { apply run_drained. intro H. reflexivity. }
  unfold outbound in Hall. rewrite (Hdr Hs), app_nil_r in Hall. exact Hall.
Qed.

(** C4 (what the code does): the handler installed by [onopen] tests the
    [micActive] of the scope it was created in, which is [true], not
    [micActiveRef.current].  After the user has muted, the state variable
    and the ref are both [false], and a captured frame is still encoded and
    sent.  The input analyser sees every frame in either state. *)
Theorem mute_does_not_gate_transmission :
  forall f : Frame,
    let muted := run [Open; Resolve; ToggleMic] mounted in
    micActive muted = false /\
    micActiveRef muted = false /\
    sent (capture f muted)
      = sent muted ++ [sendRealtimeInput (createPcmBlob f)] /\
    (forall s, inputAnalyser (capture f s) = inputAnalyser s ++ [f]).
Proof.
  intros f muted.
  split; [reflexivity |]. split; [reflexivity |]. split; [reflexivity |].
  intro s. unfold capture. cbn [onaudioprocess_set].
  destruct (onaudioprocess_set s); [| reflexivity].
  unfold onaudioprocess. cbn [scope_micActive].
  destruct (negb (scope_micActive s)); [reflexivity |].
  unfold sessionPromise_then. cbn [session].
  destruct (session s); reflexivity.
Qed.

End Handlers.

(** ** An instance *)

(** A stand-in for the absent [createPcmBlob]: the declared MIME type and
    the number of samples as payload marker. *)
Definition blob_example (f : Frame) : Blob :=
  mkBlob "audio/pcm;rate=16000"
         (string_of_list_ascii (repeat "A"%char (List.length f))).

Definition session_example : list Event :=
  [Resolve; AudioProcess [0%Q]; ToggleMic].

Lemma start_turn_sent_first_once_witness :
  forallb not_open session_example = true /\
  forallb not_open [AudioProcess [1%Q; 0%Q]] = true /\
  sent (run blob_example
          (session_example ++ Open :: [AudioProcess [1%Q; 0%Q]]) mounted)
    <> [] /\
  hd_error
    (sent (run blob_example
             (session_example ++ Open :: [AudioProcess [1%Q; 0%Q]]) mounted))
  = Some (send [mkTurn "user"
                  "The show is starting. Introduce yourself and ask the first question now."]
               true).
Proof.
  split; [reflexivity | split; [reflexivity |]].
  destruct (start_turn_sent_first_once blob_example session_example
              [AudioProcess [1%Q; 0%Q]] eq_refl eq_refl)
    as (_ & _ & frames & _ & Hsent).
  rewrite (Hsent (or_introl eq_refl)).
  split; [discriminate | reflexivity].
Defined.

End Capture.


(* ================================================================== *)
(** * Session teardown *)
(* ================================================================== *)

Module Teardown.

(** The browser objects [cleanup] acts on, with the state each of them
    exposes: [MediaStreamTrack.readyState], [AudioContext.state], whether
    a node still has outgoing connections, whether the session's socket is
    open. *)
Inductive ReadyState : Type := live | ended.
Inductive ContextState : Type := running | closed.

Record Resources : Type := mkResources {
  session_open : bool;
  tracks : list ReadyState;        (* stream.getTracks() *)
  processor_connected : bool;
  source_connected : bool;
  ctx : ContextState;
  inputCtx : ContextState;
  released : nat                   (* tracks taken from live to ended *)
}.

(** The session as [initSession] leaves it, with [n] microphone tracks. *)
Definition acquired (n : nat) : Resources :=
  mkResources true (repeat live n) true true running running 0.

Definition is_live (t : ReadyState) : bool :=
  match t with live => true | ended => false end.

(** [t.stop()]: the track is ended afterwards. *)
Definition stop (t : ReadyState) : ReadyState := ended.

(** [ctx.close()]: the context is closed afterwards. *)
Definition close (c : ContextState) : ContextState := closed.

(** The [cleanup] closure:
    [sessionPromise.then(session => session.close());
     stream.getTracks().forEach(t => t.stop());
     processor.disconnect(); source.disconnect();
     ctx.close(); inputCtx.close();]
    Six calls one after the other, none of them guarded, none of their
    results used. *)
Definition cleanup (r : Resources) : Resources :=
  mkResources
    false
    (map stop (tracks r))
    false
    false
    (close (ctx r))
    (close (inputCtx r))
    (released r + List.length (filter is_live (tracks r))).

(** The part of the state that is a resource held. *)
Definition held (r : Resources) :
  bool * list ReadyState * bool * bool * ContextState * ContextState :=
  (session_open r, tracks r, processor_connected r, source_connected r,
   ctx r, inputCtx r).

Lemma no_live_after_stop :
  forall ts, filter is_live (map stop ts) = [].
Proof.
  induction ts as [| t ts IH]; simpl; auto.
Qed.

Lemma stop_stop : forall ts, map stop (map stop ts) = map stop ts.
Proof.
  intro ts. rewrite map_map. reflexivity.
Qed.

Lemma live_repeat :
  forall n, List.length (filter is_live (repeat live n)) = n.
Proof.
  induction n as [| n IH]; simpl; [reflexivity | now rewrite IH].
Qed.

(** C7: a second [cleanup] after a completed one changes nothing: the
    state it leaves is the state the first call left, with the socket
    closed, every track ended, both nodes disconnected and both contexts
    closed.  Each track that was live leaves that state in the first
    call, and no track is live for the second call to release: of a
    session with [n] microphone tracks, one call and two calls both
    release [n]. *)
Theorem cleanup_twice :
  forall r : Resources,
    let r1 := cleanup r in
    let r2 := cleanup r1 in
    r2 = r1 /\
    held r1 = (false, map (fun _ => ended) (tracks r), false, false,
               closed, closed) /\
    released r1 = (released r + List.length (filter is_live (tracks r)))%nat /\
    filter is_live (tracks r1) = [] /\
    released r2 = released r1 /\
    (forall n : nat,
        released (cleanup (acquired n)) = n /\
        released (cleanup (cleanup (acquired n))) = n).
Proof.
  intros r r1 r2. subst r1 r2. unfold held, cleanup. cbn [tracks ctx inputCtx
    released session_open processor_connected source_connected].
  rewrite stop_stop, no_live_after_stop. cbn [List.length].
  rewrite Nat.add_0_r.
  repeat split; try reflexivity.
  - cbn [acquired tracks released]. apply live_repeat.
  - cbn [acquired tracks released]. rewrite no_live_after_stop.
    cbn [List.length]. rewrite Nat.add_0_r. apply live_repeat.
Qed.

(** A session with two microphone tracks, torn down once and twice. *)
Example cleanup_twice_two_tracks :
  cleanup (acquired 2)
    = mkResources false [ended; ended] false false closed closed 2 /\
  cleanup (cleanup (acquired 2)) = cleanup (acquired 2).
Proof.
  split; reflexivity.
Qed.

End Teardown.

(* ================================================================== *)
(** * Visual quiz: score and leaderboard *)
(* ================================================================== *)

(** [types.ts] *)
Module Types.

Record Question : Type := mkQuestion {
  question : string;
  options : list string;
  correctAnswer : string;
  explanation : string
}.

Record LeaderboardEntry : Type := mkEntry {
  name : string;
  score : Z;
  topic : string;
  difficulty : string;
  date : string
}.

End Types.

Module Quiz.

Import Types.
Open Scope Z_scope.

(** The state of [VisualTrivia] that the handlers read or write, the two
    props that go into a leaderboard entry, and the stored leaderboard
    ([localStorage] key [trivia_leaderboard], parsed). *)
Record State : Type := mkState {
  p_topic : string;
  p_difficulty : string;
  data : option (list Question);    (* data, then data.questions *)
  currentIndex : nat;
  selectedOption : option string;
  isAnswered : bool;
  score : Z;
  gameOver : bool;
  playerName : string;
  leaderboard : list LeaderboardEntry;
  exited : bool                     (* onExit has been called *)
}.

(** [useState] initial values, with whatever the store holds. *)
Definition initial (topic difficulty : string)
  (stored : list LeaderboardEntry) : State :=
  mkState topic difficulty None 0%nat None false 0 false EmptyString
          stored false.

Definition set_score (z : Z) (s : State) : State :=
  mkState (p_topic s) (p_difficulty s) (data s) (currentIndex s)
          (selectedOption s) (isAnswered s) z (gameOver s) (playerName s)
          (leaderboard s) (exited s).

Definition set_answered (o : string) (s : State) : State :=
  mkState (p_topic s) (p_difficulty s) (data s) (currentIndex s)
          (Some o) true (score s) (gameOver s) (playerName s)
          (leaderboard s) (exited s).

(** [handleAnswer].  When [data.questions[currentIndex]] is undefined the
    read of [correctAnswer] throws, after the two setters and before any
    score update. *)
Definition handleAnswer (option : string) (s : State) : State :=
  if isAnswered s then s
  else
    match data s with
    | None => s
    | Some questions =>
        let s1 := set_answered option s in
        match nth_error questions (currentIndex s) with
        | None => s1
        | Some currentQ =>
            if String.eqb option (correctAnswer currentQ)
            then set_score (score s1 + 100) s1
            else set_score (Z.max 0 (score s1 - 20)) s1
        end
    end.

(** [nextQuestion] *)
Definition nextQuestion (s : State) : State :=
  match data s with
  | None => s
  | Some questions =>
      if Z.of_nat (currentIndex s) <? Z.of_nat (List.length questions) - 1
      then mkState (p_topic s) (p_difficulty s) (data s)
                   (S (currentIndex s)) None false (score s) (gameOver s)
                   (playerName s) (leaderboard s) (exited s)
      else mkState (p_topic s) (p_difficulty s) (data s)
                   (currentIndex s) (selectedOption s) (isAnswered s)
                   (score s) true (playerName s) (leaderboard s) (exited s)
  end.

(** [setData(result)] once the questions have been fetched. *)
Definition loaded (questions : list Question) (s : State) : State :=
  mkState (p_topic s) (p_difficulty s) (Some questions) (currentIndex s)
          (selectedOption s) (isAnswered s) (score s) (gameOver s)
          (playerName s) (leaderboard s) (exited s).

(** [setPlayerName(e.target.value)] *)
Definition setPlayerName (n : string) (s : State) : State :=
  mkState (p_topic s) (p_difficulty s) (data s) (currentIndex s)
          (selectedOption s) (isAnswered s) (score s) (gameOver s) n
          (leaderboard s) (exited s).

(** ** Saving a score *)

(** White space that [String.prototype.trim] removes, among the ASCII
    characters: tab, line feed, vertical tab, form feed, carriage return,
    space. *)
Definition is_space (c : ascii) : bool :=
  let n := nat_of_ascii c in
  ((9 <=? n) && (n <=? 13) || (n =? 32))%nat.

(** [!playerName.trim()]: the name is empty once trimmed. *)
Definition blank (s : string) : bool :=
  forallb is_space (list_ascii_of_string s).

(** [Array.prototype.sort] with the comparator [(a, b) => b.score - a.score]:
    a stable sort into descending order of score.  Insertion keeps an
    element in front of the later elements of equal score. *)
Fixpoint insert (e : LeaderboardEntry) (l : list LeaderboardEntry)
  : list LeaderboardEntry :=
  match l with
  | [] => [e]
  | x :: tl =>
      if Types.score x <=? Types.score e then e :: l else x :: insert e tl
  end.

Fixpoint sort (l : list LeaderboardEntry) : list LeaderboardEntry :=
  match l with
  | [] => []
  | x :: tl => insert x (sort tl)
  end.

(** [slice(0, 50)] *)
Definition slice50 (l : list LeaderboardEntry) : list LeaderboardEntry :=
  firstn 50 l.

(** [handleSaveScore]; [now] is [new Date().toISOString()]. *)
Definition handleSaveScore (now : string) (s : State) : State :=
  if blank (playerName s) then s
  else
    let entry := mkEntry (playerName s) (score s) (p_topic s)
                         (p_difficulty s) now in
    let existing := leaderboard s in
    let updated := slice50 (sort (existing ++ [entry])) in
    mkState (p_topic s) (p_difficulty s) (data s) (currentIndex s)
            (selectedOption s) (isAnswered s) (score s) (gameOver s)
            (playerName s) updated true.

(** What the player or the component can do. *)
Inductive Event : Type :=
| Loaded (questions : list Question)
| Answer (option : string)
| Next
| SetName (n : string)
| Save (now : string).

Definition step (e : Event) (s : State) : State :=
  match e with
  | Loaded qs => loaded qs s
  | Answer o => handleAnswer o s
  | Next => nextQuestion s
  | SetName n => setPlayerName n s
  | Save now => handleSaveScore now s
  end.

Definition run (evs : list Event) (s : State) : State :=
  fold_left (fun acc e => step e acc) evs s.

(** Whether [handleAnswer] takes the answer, and if so whether it is the
    correct one. *)
Definition verdict (option : string) (s : State) : Datatypes.option bool :=
  if isAnswered s then None
  else
    match data s with
    | None => None
    | Some questions =>
        match nth_error questions (currentIndex s) with
        | None => None
        | Some currentQ => Some (String.eqb option (correctAnswer currentQ))
        end
    end.

(** Descending by score. *)
Definition desc (a b : LeaderboardEntry) : Prop :=
  Types.score b <= Types.score a.

(** ** The sort *)

Lemma insert_perm : forall e l, Permutation (e :: l) (insert e l).
Proof.
  intros e l. induction l as [| x tl IH]; simpl.
  - apply Permutation_refl.
  - destruct (Types.score x <=? Types.score e).
    + apply Permutation_refl.
    + eapply perm_trans; [apply perm_swap |]. now apply perm_skip.
Qed.

Lemma sort_perm : forall l, Permutation l (sort l).
Proof.
  induction l as [| x tl IH]; simpl.
  - constructor.
  - eapply perm_trans; [apply perm_skip, IH | apply insert_perm].
Qed.

Lemma insert_sorted :
  forall e l, StronglySorted desc l -> StronglySorted desc (insert e l).
Proof.
  intros e l Hs. induction Hs as [| x tl Hs IH Hall]; simpl.
  - constructor; constructor.
  - destruct (Types.score x <=? Types.score e) eqn:Hle.
    + apply Z.leb_le in Hle.
      constructor; [constructor; assumption |].
      constructor; [exact Hle |].
      eapply Forall_impl; [| exact Hall].
      unfold desc. intros y Hy. lia.
    + apply Z.leb_gt in Hle.
      constructor; [exact IH |].
      apply (Permutation_Forall (insert_perm e tl)).
      constructor; [unfold desc; lia | exact Hall].
Qed.

Lemma sort_sorted : forall l, StronglySorted desc (sort l).
Proof.
  induction l as [| x tl IH]; simpl.
  - constructor.
  - now apply insert_sorted.
Qed.

(** Where [insert] puts an entry: behind every entry that scores more,
    in front of the first one that does not.  An entry therefore stays
    ahead of the later entries of equal score: the sort is stable. *)
Lemma insert_after_higher :
  forall e x tl,
    Types.score e < Types.score x -> insert e (x :: tl) = x :: insert e tl.
Proof.
  intros e x tl H. simpl.
  destruct (Types.score x <=? Types.score e) eqn:Hle; [| reflexivity].
  apply Z.leb_le in Hle. lia.
Qed.

Lemma insert_before_not_higher :
  forall e x tl,
    Types.score x <= Types.score e -> insert e (x :: tl) = e :: x :: tl.
Proof.
  intros e x tl H. simpl.
  destruct (Types.score x <=? Types.score e) eqn:Hle; [reflexivity |].
  apply Z.leb_gt in Hle. lia.
Qed.

Lemma firstn_sorted :
  forall n l, StronglySorted desc l -> StronglySorted desc (firstn n l).
Proof.
  induction n as [| n IH]; intros l Hs; simpl.
  - constructor.
  - destruct Hs as [| x tl Hs Hall]; constructor.
    + now apply IH.
    + rewrite Forall_forall in *. intros y Hy.
      apply Hall. rewrite <- (firstn_skipn n tl).
      apply in_or_app. now left.
Qed.

Lemma sorted_app_desc :
  forall l1 l2,
    StronglySorted desc (l1 ++ l2) ->
    forall k d, In k l1 -> In d l2 -> desc k d.
Proof.
  induction l1 as [| x l1 IH]; intros l2 Hs k d Hk Hd.
  - destruct Hk.
  - simpl in Hs. inversion Hs as [| ? ? Hs' Hall]; subst.
    destruct Hk as [-> | Hk].
    + rewrite Forall_forall in Hall. apply Hall, in_or_app. now right.
    + now apply (IH l2 Hs').
Qed.

(** ** Claims about the quiz *)

(** C9: whenever [handleSaveScore] saves (the trimmed player name is not
    empty), the list it stores is in descending order of score and has at
    most 50 entries, each a [LeaderboardEntry]; what is stored together
    with what the cap cuts off is a rearrangement of the stored list
    followed by the new entry, and nothing cut off scores more than
    anything kept. *)
Theorem saved_leaderboard_sorted_capped :
  forall (now : string) (s : State),
    blank (playerName s) = false ->
    let entry := mkEntry (playerName s) (score s) (p_topic s)
                         (p_difficulty s) now in
    let s' := handleSaveScore now s in
    StronglySorted desc (leaderboard s') /\
    (List.length (leaderboard s') <= 50)%nat /\
    (exists cut,
        Permutation (leaderboard s ++ [entry]) (leaderboard s' ++ cut) /\
        forall k d, In k (leaderboard s') -> In d cut -> desc k d) /\
    exited s' = true.
Proof.
  intros now s Hname entry s'. subst s'.
  unfold handleSaveScore. rewrite Hname. cbn [leaderboard exited].
  fold entry. unfold slice50.
  set (sorted := sort (leaderboard s ++ [entry])).
  assert (Hs : StronglySorted desc sorted) by apply sort_sorted.
  split; [now apply firstn_sorted |].
  split; [apply firstn_le_length |].
  split; [| reflexivity].
  exists (skipn 50 sorted).
  rewrite firstn_skipn. split; [apply sort_perm |].
  apply sorted_app_desc. now rewrite firstn_skipn.
Qed.

(** C10: the score starts at 0 and is never negative, whatever the player
    does.  An answer that [handleAnswer] takes adds exactly 100 when it is
    the correct one and otherwise takes 20 off, stopping at 0; nothing else
    changes the score. *)
Theorem score_never_negative :
  forall (topic difficulty : string) (stored : list LeaderboardEntry)
         (evs : list Event),
    score (initial topic difficulty stored) = 0 /\
    0 <= score (run evs (initial topic difficulty stored)) /\
    (forall (e : Event) (s : State),
        score (step e s) =
          match e with
          | Answer o =>
              match verdict o s with
              | Some true => score s + 100
              | Some false => Z.max 0 (score s - 20)
              | None => score s
              end
          | _ => score s
          end).
Proof.
  intros topic difficulty stored evs.
  assert (Hstep : forall e s,
             score (step e s) =
               match e with
               | Answer o =>
                   match verdict o s with
                   | Some true => score s + 100
                   | Some false => Z.max 0 (score s - 20)
                   | None => score s
                   end
               | _ => score s
               end).
  { intros [qs | o | | n | now] s; simpl.
    - reflexivity.
    - unfold handleAnswer, verdict.
      destruct (isAnswered s); [reflexivity |].
      destruct (data s) as [qs |]; [| reflexivity].
      destruct (nth_error qs (currentIndex s)) as [q |]; [| reflexivity].
      destruct (String.eqb o (correctAnswer q)); reflexivity.
    - unfold nextQuestion.
      destruct (data s) as [qs |]; [| reflexivity].
      destruct (_ <? _); reflexivity.
    - reflexivity.
    - unfold handleSaveScore.
      destruct (blank (playerName s)); reflexivity. }
  split; [reflexivity |]. split; [| exact Hstep].
  assert (Hinv : forall l s, 0 <= score s -> 0 <= score (run l s)).
  { induction l as [| e l IH]; intros s Hs; simpl; [exact Hs |].
    apply IH. rewrite Hstep.
    destruct e as [qs | o | | n | now]; try exact Hs.
    destruct (verdict o s) as [[|] |]; lia. }
  apply Hinv. simpl. lia.
Qed.

(** ** Instances *)

Local Open Scope string_scope.

Definition q1 : Question :=
  mkQuestion "Which planet is the red planet?" ["Venus"; "Mars"] "Mars"
             "Iron oxide.".

(** A wrong answer first, then the right one on the second question. *)
Example one_wrong_one_right :
  score (run [Loaded [q1; q1]; Answer "Venus"; Next; Answer "Mars"]
           (initial "Space" "Easy" []))
  = 100.
Proof. reflexivity. Qed.

Definition board : list LeaderboardEntry :=
  [mkEntry "ada" 300 "Space" "Easy" "2024-01-01T00:00:00.000Z";
   mkEntry "bob" 100 "Space" "Easy" "2024-01-02T00:00:00.000Z"].

Definition finished : State :=
  run [Loaded [q1]; Answer "Mars"; Next; SetName "cy"]
      (initial "Space" "Easy" board).

Example save_keeps_ties_in_order :
  map name (leaderboard (handleSaveScore "2024-01-03T00:00:00.000Z" finished))
  = ["ada"; "bob"; "cy"].
Proof. reflexivity. Qed.

Lemma saved_leaderboard_sorted_capped_witness :
  blank (playerName finished) = false /\
  StronglySorted desc
    (leaderboard (handleSaveScore "2024-01-03T00:00:00.000Z" finished)) /\
  List.length
    (leaderboard (handleSaveScore "2024-01-03T00:00:00.000Z" finished))
  = 3%nat.
Proof.
  split; [reflexivity |].
  split; [| reflexivity].
  exact (proj1 (saved_leaderboard_sorted_capped
                  "2024-01-03T00:00:00.000Z" finished eq_refl)).
Defined.

End Quiz.

(* ================================================================== *)
(** * Further properties of the decode & schedule pipeline *)
(* ================================================================== *)

Module PlaybackFacts.

Import Playback.
Open Scope Q_scope.

Section Facts.

Variable A : Arithmetic.
Variable base64ToUint8Array : string -> option (list Byte.byte).
Variable decodeAudioData :
  list Byte.byte -> positive -> nat -> option AudioBuffer.

Local Abbreviation onmessage_begin :=
  (Playback.onmessage_begin base64ToUint8Array decodeAudioData).
Local Abbreviation onmessage :=
  (Playback.onmessage A base64ToUint8Array decodeAudioData).
Local Abbreviation step := (Playback.step A base64ToUint8Array decodeAudioData).
Local Abbreviation run := (Playback.run A base64ToUint8Array decodeAudioData).
Local Abbreviation schedule := (Playback.schedule A).
Local Abbreviation onmessage_resume := (Playback.onmessage_resume A).
Local Abbreviation decoded := (Playback.decoded base64ToUint8Array decodeAudioData).

(** ** The cursor along a run *)

(** The playback cursor never moves back as long as no interruption is
    processed: whatever the arrival times, the order in which decodes
    settle or sources end. *)
Theorem cursor_never_decreases :
  forall (evs : list Event) (s : State),
    forallb uninterrupted evs = true ->
    calm s ->
    nextStartTimeRef s <= nextStartTimeRef (run evs s).
Proof.
  induction evs as [| e evs IH]; intros s Hq Hc; simpl.
  - apply Qle_refl.
  - simpl in Hq. apply andb_true_iff in Hq. destruct Hq as [He Hevs].
    destruct (Playback.step_cursor A base64ToUint8Array decodeAudioData
                e s He Hc) as [Hle Hc'].
    eapply Qle_trans; [exact Hle |].
    now apply IH.
Qed.

(** ** Book-keeping of source nodes *)

(** Every node in the live set or in the stop log has been created, no
    node is in both, neither holds a node twice, and every live node has
    been started. *)
Record tidy (s : State) : Prop := mkTidy {
  live_nodup : NoDup (sourcesRef s);
  stopped_nodup : NoDup (stopped s);
  live_created : forall n, In n (sourcesRef s) -> (n < fresh s)%nat;
  stopped_created : forall n, In n (stopped s) -> (n < fresh s)%nat;
  live_not_stopped : forall n, In n (sourcesRef s) -> ~ In n (stopped s);
  live_started :
    forall n, In n (sourcesRef s) -> exists e, In e (started s) /\ node e = n;
  started_created : forall e, In e (started s) -> (node e < fresh s)%nat
}.

Lemma NoDup_app_disjoint :
  forall (l1 l2 : list nat),
    NoDup l1 -> NoDup l2 -> (forall n, In n l2 -> ~ In n l1) ->
    NoDup (l1 ++ l2).
Proof.
  induction l1 as [| x l1 IH]; intros l2 H1 H2 Hd; simpl; [exact H2 |].
  inversion H1 as [| ? ? Hx H1']; subst.
  constructor.
  - intro Hin. apply in_app_or in Hin. destruct Hin as [Hin | Hin].
    + now apply Hx.
    + apply (Hd x Hin). now left.
  - apply IH; auto. intros n Hn Hn'. apply (Hd n Hn). now right.
Qed.

Lemma interrupt_tidy : forall s, tidy s -> tidy (interrupt s).
Proof.
  intros s [Hl Hs Hlc Hsc Hd Hst Hsd].
  constructor; simpl.
  - constructor.
  - apply NoDup_app_disjoint; auto.
  - intros n [].
  - intros n Hn. apply in_app_or in Hn. destruct Hn; auto.
  - intros n [].
  - intros n [].
  - exact Hsd.
Qed.

Lemma handle_interrupted_tidy :
  forall msg s, tidy s -> tidy (handle_interrupted msg s).
Proof.
  intros msg s H. unfold handle_interrupted.
  destruct (interrupted msg); [now apply interrupt_tidy | exact H].
Qed.

Lemma schedule_tidy : forall b s, tidy s -> tidy (schedule b s).
Proof.
  intros b s [Hl Hs Hlc Hsc Hd Hst Hsd].
  constructor; simpl.
  - apply NoDup_app_disjoint; auto.
    + constructor; [intros [] | constructor].
    + intros n [<- | []] Hin. apply Hlc in Hin. lia.
  - exact Hs.
  - intros n Hn. apply in_app_or in Hn.
    destruct Hn as [Hn | [<- | []]]; [apply Hlc in Hn |]; lia.
  - intros n Hn. apply Hsc in Hn. lia.
  - intros n Hn Hstop. apply in_app_or in Hn.
    destruct Hn as [Hn | [<- | []]].
    + now apply (Hd n).
    + apply Hsc in Hstop. lia.
  - intros n Hn. apply in_app_or in Hn.
    destruct Hn as [Hn | [<- | []]].
    + destruct (Hst n Hn) as (e & He & Hne). exists e. split; [now right | exact Hne].
    + eexists. split; [left; reflexivity | reflexivity].
  - intros e [<- | He]; simpl; [lia |]. apply Hsd in He. lia.
Qed.

Lemma same_nodes_tidy :
  forall s s',
    sourcesRef s' = sourcesRef s -> stopped s' = stopped s ->
    fresh s' = fresh s -> started s' = started s ->
    tidy s -> tidy s'.
Proof.
  intros s s' Hl Hs Hf Hst [H1 H2 H3 H4 H5 H6 H7].
  constructor; rewrite ?Hl, ?Hs, ?Hf, ?Hst; assumption.
Qed.

Lemma step_tidy : forall e s, tidy s -> tidy (step e s).
Proof.
  intros [dt | msg | k | n] s Ht; simpl.
  - now apply (same_nodes_tidy s).
  - unfold Playback.onmessage_begin.
    destruct (inlineData msg) as [b64 |];
      [| now apply handle_interrupted_tidy].
    destruct (truthy b64); [| now apply handle_interrupted_tidy].
    destruct (audioContextRef s); [| now apply handle_interrupted_tidy].
    destruct (base64ToUint8Array b64) as [bytes |];
      now apply (same_nodes_tidy s).
  - destruct (nth_error (suspended s) k) as [p |]; [| exact Ht].
    assert (Ht' : tidy (set_suspended (drop_nth k (suspended s)) s))
      by now apply (same_nodes_tidy s).
    unfold Playback.onmessage_resume.
    destruct (p_decoded p) as [b |]; [| exact Ht'].
    now apply handle_interrupted_tidy, schedule_tidy.
  - destruct Ht as [Hl Hs Hlc Hsc Hd Hst Hsd].
    constructor; simpl; auto.
    + now apply NoDup_filter.
    + intros m Hm. apply filter_In in Hm. now apply Hlc.
    + intros m Hm. apply filter_In in Hm. now apply Hd.
    + intros m Hm. apply filter_In in Hm. now apply Hst.
Qed.

Lemma run_tidy : forall evs s, tidy s -> tidy (run evs s).
Proof.
  induction evs as [| e evs IH]; intros s Ht; simpl; [exact Ht |].
  now apply IH, step_tidy.
Qed.

Lemma init_tidy : forall t0, tidy (init t0).
Proof.
  intro t0. constructor; simpl; try constructor; intros ? [].
Qed.

(** In every run of a session, [stop()] is called at most once on any
    source, never on a source that is still in the live set afterwards,
    and the live set holds each source at most once and only sources that
    were started. *)
Theorem sources_stopped_at_most_once :
  forall (t0 : Q) (evs : list Event),
    let s := run evs (init t0) in
    NoDup (stopped s) /\
    NoDup (sourcesRef s) /\
    (forall n, In n (sourcesRef s) -> ~ In n (stopped s)) /\
    (forall n, In n (sourcesRef s) ->
               exists e, In e (started s) /\ node e = n).
Proof.
  intros t0 evs s.
  destruct (run_tidy evs (init t0) (init_tidy t0)) as [Hl Hs _ _ Hd Hst _].
  repeat split; assumption.
Qed.

(** ** A source that has ended *)

Lemma step_gone :
  forall e s n,
    (n < fresh s)%nat -> ~ In n (sourcesRef s) -> ~ In n (stopped s) ->
    (n < fresh (step e s))%nat /\ ~ In n (sourcesRef (step e s)) /\
    ~ In n (stopped (step e s)).
Proof.
  assert (Hint : forall msg s n,
             (n < fresh s)%nat -> ~ In n (sourcesRef s) ->
             ~ In n (stopped s) ->
             (n < fresh (handle_interrupted msg s))%nat /\
             ~ In n (sourcesRef (handle_interrupted msg s)) /\
             ~ In n (stopped (handle_interrupted msg s))).
  { intros msg s n Hf Hl Hs. unfold handle_interrupted.
    destruct (interrupted msg); simpl; [| now repeat split].
    repeat split; auto.
    intro Hin. apply in_app_or in Hin. tauto. }
  intros [dt | msg | k | m] s n Hf Hl Hs; simpl.
  - now repeat split.
  - unfold Playback.onmessage_begin.
    destruct (inlineData msg) as [b64 |]; [| now apply Hint].
    destruct (truthy b64); [| now apply Hint].
    destruct (audioContextRef s); [| now apply Hint].
    destruct (base64ToUint8Array b64) as [bytes |]; now repeat split.
  - destruct (nth_error (suspended s) k) as [p |]; [| now repeat split].
    unfold Playback.onmessage_resume.
    destruct (p_decoded p) as [b |]; [| now repeat split].
    apply Hint; simpl; auto.
    intro Hin. apply in_app_or in Hin.
    destruct Hin as [Hin | [<- | []]]; [now apply Hl | lia].
  - repeat split; auto.
    intro Hin. apply filter_In in Hin. now apply Hl.
Qed.

(** A source that ended without having been stopped is not stopped by any
    later interruption, and never comes back into the live set. *)
Theorem ended_source_is_never_stopped :
  forall (t0 : Q) (before after : list Event) (n : nat),
    let s1 := run (before ++ [OnEnded n]) (init t0) in
    (n < fresh s1)%nat ->
    ~ In n (stopped s1) ->
    ~ In n (stopped (run after s1)) /\ ~ In n (sourcesRef (run after s1)).
Proof.
  intros t0 before after n s1 Hf Hs.
  assert (Hl : ~ In n (sourcesRef s1)).
  { subst s1. unfold Playback.run. rewrite fold_left_app. simpl.
    intro Hin. apply filter_In in Hin. destruct Hin as [_ Hne].
    rewrite Nat.eqb_refl in Hne. discriminate Hne. }
  clearbody s1. revert s1 Hf Hs Hl.
  induction after as [| e after IH]; intros s1 Hf Hs Hl; simpl.
  - now split.
  - destruct (step_gone e s1 n Hf Hl Hs) as (Hf' & Hl' & Hs').
    now apply IH.
Qed.

(** ** Chunks that keep up with playback *)

(** Chunks handled one after the other, each after a delay. *)
Fixpoint handle_all (l : list (Q * LiveServerMessage)) (s : State) : State :=
  match l with
  | [] => s
  | (dt, msg) :: tl => handle_all tl (onmessage msg (tick dt s))
  end.

(** Every chunk arrives while audio scheduled earlier is still ahead of
    the clock. *)
Fixpoint keeps_up (l : list (Q * LiveServerMessage)) (s : State) : Prop :=
  match l with
  | [] => True
  | (dt, msg) :: tl =>
      currentTime s + dt <= nextStartTimeRef s /\
      keeps_up tl (onmessage msg (tick dt s))
  end.

(** A plain audio chunk: its payload decodes and it carries no
    interruption. *)
Definition chunk_ok (msg : LiveServerMessage) : bool :=
  match decoded msg with
  | Some _ => negb (interrupted msg)
  | None => false
  end.

(** Buffers, oldest first, the first starting at [c], each of the others
    at the very number the code has computed as the end of the one
    before it. *)
Fixpoint seamless (c : Q) (l : list Started) : Prop :=
  match l with
  | [] => True
  | e :: tl => when e = c /\ seamless (add A c (duration A (buffer e))) tl
  end.

(** The cursor after the durations of [l] have been added to it one
    after the other, as line 365 does. *)
Definition advance (c : Q) (l : list Started) : Q :=
  fold_left (fun acc e => add A acc (duration A (buffer e))) l c.

Lemma Qmax_left : forall x y, y <= x -> Qmax x y = x.
Proof.
  intros x y H. unfold Qmax, GenericMinMax.gmax.
  destruct (x ?= y) eqn:Hc; try reflexivity.
  apply Qlt_alt in Hc. exfalso. now apply (Qlt_not_le x y).
Qed.

Lemma sync_timing_buffered :
  forall s, currentTime s <= nextStartTimeRef s -> sync_timing s = s.
Proof.
  intros s H. unfold sync_timing, set_cursor.
  rewrite (Qmax_left _ _ H). now destruct s.
Qed.

(** While every chunk arrives before the audio scheduled so far has run
    out, playback is gapless: the first new buffer starts at the cursor,
    each later one at the number the code has computed as the end of the
    one before, and the cursor ends up where the durations, added to it
    one after the other in the code's own arithmetic, take it. *)
Theorem no_gap_while_chunks_keep_up :
  forall (l : list (Q * LiveServerMessage)) (s : State),
    audioContextRef s = true ->
    forallb chunk_ok (map snd l) = true ->
    keeps_up l s ->
    exists entries : list Started,
      started (handle_all l s) = rev entries ++ started s /\
      List.length entries = List.length l /\
      seamless (nextStartTimeRef s) entries /\
      nextStartTimeRef (handle_all l s) = advance (nextStartTimeRef s) entries.
Proof.
  induction l as [| [dt msg] tl IH]; intros s Hctx Hok Hup; simpl.
  - exists []. simpl. repeat split.
  - simpl in Hok. apply andb_true_iff in Hok. destruct Hok as [Hm Htl].
    destruct Hup as [Hbuf Hup].
    unfold chunk_ok in Hm.
    destruct (decoded msg) as [b |] eqn:Hdec; [| discriminate].
    apply negb_true_iff in Hm.
    assert (Hctx' : audioContextRef (tick dt s) = true) by exact Hctx.
    destruct (onmessage_decoded A base64ToUint8Array decodeAudioData
                (tick dt s) msg b Hctx' Hdec) as [_ Hrun].
    rewrite (handle_interrupted_off _ _ Hm) in Hrun.
    rewrite sync_timing_buffered in Hrun by exact Hbuf.
    rewrite Hrun in Hup. rewrite Hrun.
    destruct (IH (schedule b (tick dt s)) Hctx Htl Hup)
      as (entries & Hlog & Hlen & Hseam & Hcur).
    exists (mkStarted (fresh s) (nextStartTimeRef s) b (currentTime s + dt)
              :: entries).
    split; [| split; [| split]].
    + rewrite Hlog. simpl. now rewrite <- app_assoc.
    + simpl. now rewrite Hlen.
    + simpl. split; [reflexivity | exact Hseam].
    + rewrite Hcur. reflexivity.
Qed.

(** ** Start times and the clock *)

Lemma onmessage_started :
  forall msg s,
    started (onmessage msg s) = started s \/
    exists b,
      started (onmessage msg s) =
        mkStarted (fresh s) (Qmax (nextStartTimeRef s) (currentTime s)) b
                  (currentTime s) :: started s.
Proof.
  intros msg s. unfold Playback.onmessage, Playback.onmessage_begin.
  destruct (inlineData msg) as [b64 |];
    [| left; apply handle_interrupted_started].
  destruct (truthy b64); [| left; apply handle_interrupted_started].
  destruct (audioContextRef s); [| left; apply handle_interrupted_started].
  destruct (base64ToUint8Array b64) as [bytes |]; [| now left].
  unfold onmessage_resume. simpl.
  destruct (decodeAudioData bytes 24000 1) as [b |]; [| now left].
  right. exists b. now rewrite handle_interrupted_started.
Qed.

(** When every handler runs to completion before the clock moves (the
    decode takes no time), no buffer is ever given a start time earlier
    than the clock at the moment [source.start] is called, interruptions
    and failed decodes included. *)
Theorem start_never_in_the_past :
  forall (l : list (Q * LiveServerMessage)) (s : State),
    Forall (fun e => clock e <= when e) (started s) ->
    Forall (fun e => clock e <= when e) (started (handle_all l s)).
Proof.
  induction l as [| [dt msg] tl IH]; intros s H; simpl; [exact H |].
  apply IH.
  destruct (onmessage_started msg (tick dt s)) as [-> | (b & ->)].
  - exact H.
  - constructor; [| exact H]. simpl. apply Q.le_max_r.
Qed.

End Facts.

(** ** Instances *)


(** Source 0 is started and ends on its own; an interruption follows
    while source 1 is playing. *)
Lemma ended_source_is_never_stopped_witness :
  (0 < fresh (run_example ([OnMessage chunk3; Settled 0] ++ [OnEnded 0%nat])
                (init 0)))%nat /\
  stopped (run_example
             [OnMessage chunk6; Settled 0; OnMessage signal_interrupted]
             (run_example ([OnMessage chunk3; Settled 0] ++ [OnEnded 0%nat])
                (init 0)))
  = [1%nat] /\
  ~ In 0%nat
      (stopped (run_example
                  [OnMessage chunk6; Settled 0; OnMessage signal_interrupted]
                  (run_example
                     ([OnMessage chunk3; Settled 0] ++ [OnEnded 0%nat])
                     (init 0)))).
Proof.
  split; [vm_compute; reflexivity |].
  split; [reflexivity |].
  refine (proj1 (ended_source_is_never_stopped exact_arithmetic base64_example pcm16_example
                   0 [OnMessage chunk3; Settled 0]
                   [OnMessage chunk6; Settled 0; OnMessage signal_interrupted]
                   0%nat _ _)).
  - vm_compute. reflexivity.
  - intros [].
Defined.

(** A first chunk of 1/8000 s at time 2, a second at once, a third
    1/10000 s later: each arrives before the audio ahead of it runs out.
    The sums are rounded. *)
Definition burst : list (Q * LiveServerMessage) :=
  [(0, chunk3); (1 # 10000, chunk6)].

Definition primed : State :=
  Playback.onmessage rounded_arithmetic base64_example pcm16_example
    chunk3 (init 2).

Lemma no_gap_while_chunks_keep_up_witness :
  audioContextRef primed = true /\
  forallb (chunk_ok base64_example pcm16_example) (map snd burst) = true /\
  keeps_up rounded_arithmetic base64_example pcm16_example burst primed /\
  exists entries : list Started,
    started (handle_all rounded_arithmetic base64_example pcm16_example
               burst primed)
      = rev entries ++ started primed /\
    List.length entries = 2%nat /\
    seamless rounded_arithmetic (nextStartTimeRef primed) entries /\
    nextStartTimeRef (handle_all rounded_arithmetic base64_example
                        pcm16_example burst primed)
      = advance rounded_arithmetic (nextStartTimeRef primed) entries.
Proof.
  split; [reflexivity |]. split; [reflexivity |].
  assert (Hup : keeps_up rounded_arithmetic base64_example pcm16_example
                  burst primed).
  { simpl. repeat split; vm_compute; discriminate. }
  split; [exact Hup |].
  exact (no_gap_while_chunks_keep_up rounded_arithmetic base64_example
           pcm16_example burst primed eq_refl eq_refl Hup).
Defined.

(** The starts of that burst, newest first: rounded sums, each the very
    number the cursor held. *)
Example burst_starts_rounded :
  map (fun e => Qred (when e))
    (started (handle_all rounded_arithmetic base64_example pcm16_example
                burst primed))
  = [1048707 # 524288; 2097283 # 1048576; 2] /\
  Qred (nextStartTimeRef
          (handle_all rounded_arithmetic base64_example pcm16_example
             burst primed))
  = 524419 # 262144.
Proof.
  split; vm_compute; reflexivity.
Qed.

Lemma cursor_never_decreases_witness :
  forallb uninterrupted jittery = true /\
  calm (init 0) /\
  nextStartTimeRef (init 0) <= nextStartTimeRef (run_example jittery (init 0)).
Proof.
  split; [reflexivity |].
  split; [constructor |].
  exact (cursor_never_decreases exact_arithmetic base64_example pcm16_example
           jittery (init 0) eq_refl (Forall_nil _)).
Defined.

Lemma start_never_in_the_past_witness :
  Forall (fun e => clock e <= when e) (started (init 1)) /\
  Forall (fun e => clock e <= when e)
    (started (handle_all exact_arithmetic base64_example pcm16_example
                [(1 # 4, chunk3); (3, chunk_odd); (0, signal_interrupted);
                 (1, chunk6)]
                (init 1))) /\
  List.length
    (started (handle_all exact_arithmetic base64_example pcm16_example
                [(1 # 4, chunk3); (3, chunk_odd); (0, signal_interrupted);
                 (1, chunk6)]
                (init 1))) = 2%nat.
Proof.
  split; [constructor |].
  split; [| reflexivity].
  exact (start_never_in_the_past exact_arithmetic base64_example pcm16_example
           [(1 # 4, chunk3); (3, chunk_odd); (0, signal_interrupted);
            (1, chunk6)]
           (init 1) (Forall_nil _)).
Defined.

End PlaybackFacts.

(* ================================================================== *)
(** * The live session as a whole: close, error, and what is sent *)
(* ================================================================== *)

Module Session.

Import Capture.

(** [LiveTrivia] state next to the capture side: the [error] state
    variable. *)
Record Live : Type := mkLive {
  cap : Capture.State;
  error : option string
}.

Definition mounted : Live := mkLive Capture.mounted None.

(** [onclose: () => { setConnected(false); ... }] *)
Definition onclose (l : Live) : Live :=
  let s := cap l in
  mkLive (Capture.mkState (micActive s) (micActiveRef s) (scope_micActive s)
            false (onaudioprocess_set s) (session s)
            (thens s) (sent s) (inputAnalyser s))
         (error l).

(** [onerror: (err) => { ...; setError(...) }] *)
Definition onerror (l : Live) : Live :=
  mkLive (cap l) (Some "Connection error. Please try again."%string).

Inductive Event : Type :=
| Wire (e : Capture.Event)    (* open, promise resolution, mute, a frame *)
| Close
| Error.

Definition is_open (e : Event) : bool :=
  match e with
  | Wire Open => true
  | _ => false
  end.

(** The frames the microphone delivers during a sequence of events. *)
Definition frame_of (e : Event) : list Frame :=
  match e with
  | Wire (AudioProcess f) => [f]
  | _ => []
  end.

Definition frames (evs : list Event) : list Frame := flat_map frame_of evs.

Section Handlers.

Variable createPcmBlob : Frame -> Blob.

Definition step (e : Event) (l : Live) : Live :=
  match e with
  | Wire w => mkLive (Capture.step createPcmBlob w (cap l)) (error l)
  | Close => onclose l
  | Error => onerror l
  end.

Definition run (evs : list Event) (l : Live) : Live :=
  fold_left (fun acc e => step e acc) evs l.

Definition blob_call (f : Frame) : Outbound :=
  sendRealtimeInput (createPcmBlob f).

(** What stays true of the capture side from mount on. *)
Definition steady (s : Capture.State) : Prop :=
  scope_micActive s = true /\ drained s.

Lemma step_quiet :
  forall e l,
    is_open e = false -> steady (cap l) ->
    steady (cap (step e l)) /\
    onaudioprocess_set (cap (step e l)) = onaudioprocess_set (cap l) /\
    inputAnalyser (cap (step e l)) = inputAnalyser (cap l) ++ frame_of e /\
    outbound (cap (step e l)) =
      outbound (cap l) ++
      (if onaudioprocess_set (cap l) then map blob_call (frame_of e) else []).
Proof.
  intros e l Hno [Hscope Hd].
  destruct e as [[| | | f] | |]; simpl in Hno; try discriminate Hno;
    unfold steady; simpl.
  - (* the promise resolves *)
    repeat split; auto.
    + now rewrite app_nil_r.
    + unfold outbound. simpl.
      destruct (onaudioprocess_set (cap l)); now rewrite !app_nil_r.
  - (* mute toggle *)
    repeat split; auto.
    + now rewrite app_nil_r.
    + destruct (onaudioprocess_set (cap l)); now rewrite app_nil_r.
  - (* a frame *)
    unfold capture. cbn [onaudioprocess_set].
    set (s1 := Capture.mkState _ _ _ _ _ _ _ _ (inputAnalyser (cap l) ++ [f])).
    assert (H1 : drained s1) by exact Hd.
    destruct (onaudioprocess_set (cap l)) eqn:Hset.
    + assert (Hs1 : scope_micActive s1 = true) by exact Hscope.
      unfold onaudioprocess. rewrite Hs1. cbn [negb].
      destruct (then_outbound (blob_call f) s1 H1)
        as (Hout & Hd' & _ & Hset' & Hscope').
      unfold blob_call in *.
      split; [split; [now rewrite Hscope' | exact Hd'] |].
      split; [now rewrite Hset' |].
      split; [| exact Hout].
      unfold sessionPromise_then. destruct (session s1); reflexivity.
    + repeat split; auto. unfold outbound. simpl. now rewrite app_nil_r.
  - (* close *)
    repeat split; auto.
    + now rewrite app_nil_r.
    + unfold outbound. simpl.
      destruct (onaudioprocess_set (cap l)); now rewrite app_nil_r.
  - (* error *)
    repeat split; auto.
    + now rewrite app_nil_r.
    + destruct (onaudioprocess_set (cap l)); now rewrite app_nil_r.
Qed.

Lemma run_quiet :
  forall evs l,
    forallb (fun e => negb (is_open e)) evs = true -> steady (cap l) ->
    steady (cap (run evs l)) /\
    onaudioprocess_set (cap (run evs l)) = onaudioprocess_set (cap l) /\
    inputAnalyser (cap (run evs l)) = inputAnalyser (cap l) ++ frames evs /\
    outbound (cap (run evs l)) =
      outbound (cap l) ++
      (if onaudioprocess_set (cap l) then map blob_call (frames evs) else []).
Proof.
  induction evs as [| e evs IH]; intros l Hno Hst; simpl.
  - repeat split; try apply Hst; try now rewrite app_nil_r.
    destruct (onaudioprocess_set (cap l)); now rewrite app_nil_r.
  - simpl in Hno. apply andb_true_iff in Hno. destruct Hno as [He Hevs].
    apply negb_true_iff in He.
    destruct (step_quiet e l He Hst) as (Hst1 & Hset1 & Han1 & Hout1).
    destruct (IH (step e l) Hevs Hst1) as (Hst2 & Hset2 & Han2 & Hout2).
    split; [exact Hst2 |].
    split; [congruence |].
    split.
    + rewrite Han2, Han1. unfold frames. simpl. now rewrite app_assoc.
    + rewrite Hout2, Hout1, Hset1. unfold frames. simpl.
      destruct (onaudioprocess_set (cap l)).
      * now rewrite map_app, app_assoc.
      * now rewrite !app_nil_r.
Qed.

(** From mount on, the calls made on the session are the start turn
    followed by one [sendRealtimeInput] for every frame captured after
    [onopen], in capture order: muting, [onclose] and [onerror] make no
    difference to what the capture handler hands over, and frames captured
    before [onopen] are never sent.  The input analyser sees all frames. *)
Theorem every_frame_after_open_is_handed_over :
  forall before after : list Event,
    forallb (fun e => negb (is_open e)) before = true ->
    forallb (fun e => negb (is_open e)) after = true ->
    let l := run (before ++ Wire Open :: after) mounted in
    outbound (cap l) = start_turn :: map blob_call (frames after) /\
    inputAnalyser (cap l) = frames before ++ frames after.
Proof.
  intros before after Hb Ha l. subst l.
  unfold run. rewrite fold_left_app. simpl. fold (run before mounted).
  assert (Hst0 : steady (cap mounted)).
  { split; [reflexivity | intro H; discriminate H]. }
  destruct (run_quiet before mounted Hb Hst0) as ([Hsc Hd] & Hset & Han & Hout).
  simpl in Hset, Han, Hout.
  set (l1 := run before mounted) in *.
  set (l2 := mkLive (onopen (cap l1)) (error l1)).
  assert (Hopen : steady (cap l2) /\ onaudioprocess_set (cap l2) = true /\
                  inputAnalyser (cap l2) = frames before /\
                  outbound (cap l2) = [start_turn]).
  { subst l2. cbn [cap]. unfold onopen.
    set (s1 := Capture.mkState _ _ _ true _ _ _ _ _).
    assert (H1 : drained s1) by exact Hd.
    destruct (then_outbound start_turn s1 H1) as (Ho & Hd' & _ & _ & Hsc').
    unfold steady. cbn [scope_micActive onaudioprocess_set inputAnalyser].
    repeat split.
    - now rewrite Hsc'.
    - exact Hd'.
    - unfold sessionPromise_then. destruct (session s1); exact Han.
    - unfold outbound in *. cbn [sent thens]. rewrite Ho.
      change (sent s1 ++ thens s1) with (sent (cap l1) ++ thens (cap l1)).
      now rewrite Hout. }
  destruct Hopen as (Hst2 & Hset2 & Han2 & Hout2).
  destruct (run_quiet after l2 Ha Hst2) as (_ & _ & Han3 & Hout3).
  fold (run after l2). rewrite Hout3, Han3, Hset2, Hout2, Han2.
  split; reflexivity.
Qed.

End Handlers.

(** A muted stretch and a closed connection after the opening. *)
Definition busy : list Event :=
  [Wire (AudioProcess [1%Q]); Wire ToggleMic; Wire (AudioProcess [0%Q]);
   Close; Wire (AudioProcess [1%Q; 1%Q]); Error].

Lemma every_frame_after_open_is_handed_over_witness :
  forallb (fun e => negb (is_open e)) [Wire (AudioProcess []); Wire Resolve]
    = true /\
  forallb (fun e => negb (is_open e)) busy = true /\
  sent (cap (run blob_example
               ([Wire (AudioProcess []); Wire Resolve] ++ Wire Open :: busy)
               mounted))
  = start_turn
      :: map (blob_call blob_example) [[1%Q]; [0%Q]; [1%Q; 1%Q]].
Proof.
  split; [reflexivity |]. split; [reflexivity |].
  pose proof (proj1 (every_frame_after_open_is_handed_over blob_example
                       [Wire (AudioProcess []); Wire Resolve] busy
                       eq_refl eq_refl)) as H.
  unfold outbound in H.
  change (thens (cap (run blob_example
                        ([Wire (AudioProcess []); Wire Resolve]
                           ++ Wire Open :: busy) mounted)))
    with (@nil Outbound) in H.
  rewrite app_nil_r in H. exact H.
Defined.

End Session.

(* ================================================================== *)
(** * The session effect and its cleanup *)
(* ================================================================== *)

Module Lifecycle.

Import Teardown.

(** The effect of [LiveTrivia]: [let cleanup = () => {}], the call of the
    asynchronous [initSession], and [return () => cleanup()].
    [initSession] creates both audio contexts, awaits [getUserMedia],
    then wires the graph, connects the session and only then assigns
    [cleanup]; a rejection lands in its [catch]. *)
Record Effect : Type := mkEffect {
  res : Resources;
  cleanup_assigned : bool;
  error : option string
}.

(** After the synchronous part of [initSession]: the two contexts run,
    nothing else exists yet. *)
Definition started_init : Effect :=
  mkEffect (mkResources false [] false false running running 0)
           false None.

(** [getUserMedia] resolves with [n] tracks; the rest of [initSession]
    runs. *)
Definition granted (n : nat) (e : Effect) : Effect :=
  let r := res e in
  mkEffect (mkResources true (repeat live n) true true (ctx r) (inputCtx r)
              (released r))
           true (error e).

(** [getUserMedia] (or anything after it) rejects:
    [setError(err.message || ...)]. *)
Definition denied (message : string) (e : Effect) : Effect :=
  mkEffect (res e) (cleanup_assigned e)
           (Some (if Playback.truthy message then message
                  else "Failed to initialize audio session"%string)).

(** React runs the function the effect returned: [cleanup()], whatever
    [cleanup] is bound to at that moment. *)
Definition unmount (e : Effect) : Effect :=
  if cleanup_assigned e
  then mkEffect (cleanup (res e)) (cleanup_assigned e) (error e)
  else e.

(** The teardown releases the microphone when the component unmounts
    after [initSession] has finished.  When it unmounts while
    [getUserMedia] is still pending, the empty [cleanup] runs;
    [initSession] then goes on to acquire the microphone and open the
    session, and nothing releases them or closes the two contexts. *)
Theorem cleanup_only_after_init :
  forall n : nat,
    held (res (unmount (granted n started_init))) =
      (false, repeat ended n, false, false, closed, closed) /\
    released (res (unmount (granted n started_init))) = n /\
    held (res (granted n (unmount started_init))) =
      (true, repeat live n, true, true, running, running) /\
    released (res (granted n (unmount started_init))) = 0%nat.
Proof.
  intro n. unfold unmount, granted, held. simpl.
  assert (Hmap : map stop (repeat live n) = repeat ended n).
  { induction n as [| n IH]; simpl; [reflexivity | now rewrite IH]. }
  assert (Hlen : List.length (filter is_live (repeat live n)) = n).
  { clear Hmap. induction n as [| n IH]; simpl; [reflexivity |].
    f_equal. exact IH. }
  rewrite Hmap, Hlen. repeat split.
Qed.

(** When [getUserMedia] is refused the error is recorded, [cleanup] stays
    the empty closure, and unmounting leaves both audio contexts
    running. *)
Theorem refused_microphone_leaves_contexts_open :
  forall message : string,
    let e := unmount (denied message started_init) in
    error e <> None /\
    ctx (res e) = running /\ inputCtx (res e) = running.
Proof.
  intro message. simpl. repeat split. discriminate.
Qed.

End Lifecycle.

(* ================================================================== *)
(** * Further properties of the quiz *)
(* ================================================================== *)

Module QuizFacts.

Import Types.
Import Quiz.
Open Scope Z_scope.

(** The questions are fetched once per game: the fetch effect depends on
    [topic] and [difficulty], which do not change while the quiz is
    mounted. *)
Definition no_reload (e : Event) : bool :=
  match e with
  | Loaded _ => false
  | _ => true
  end.

Definition b2z (b : bool) : Z := if b then 1 else 0.

(** ** Position in the quiz and the score *)

Record in_game (qs : list Question) (s : State) : Prop := mkInGame {
  game_data : data s = Some qs;
  game_index : (currentIndex s < List.length qs)%nat;
  game_score_low : 0 <= score s;
  game_score_high :
    score s <= 100 * (Z.of_nat (currentIndex s) + b2z (isAnswered s));
  game_score_step : (20 | score s)
}.

Lemma step_in_game :
  forall qs e s, no_reload e = true -> in_game qs s -> in_game qs (step e s).
Proof.
  intros qs e s He [Hd Hi Hlo Hhi Hdiv].
  destruct e as [qs' | o | | n | now]; simpl in He; try discriminate He; simpl.
  - (* handleAnswer *)
    unfold handleAnswer.
    destruct (isAnswered s) eqn:Ha.
    { constructor; rewrite ?Ha; assumption. }
    rewrite Hd.
    destruct (nth_error qs (currentIndex s)) as [q |] eqn:Hq.
    + assert (Hhi' : score s <= 100 * Z.of_nat (currentIndex s))
        by (unfold b2z in Hhi; lia).
      destruct (String.eqb o (correctAnswer q)).
      * constructor; cbn [set_score set_answered data currentIndex score
                           isAnswered b2z].
        -- exact Hd.
        -- exact Hi.
        -- lia.
        -- lia.
        -- apply Z.divide_add_r; [exact Hdiv | now exists 5].
      * constructor; cbn [set_score set_answered data currentIndex score
                           isAnswered b2z].
        -- exact Hd.
        -- exact Hi.
        -- lia.
        -- lia.
        -- destruct (Z.max_spec 0 (score s - 20)) as [[_ ->] | [_ ->]].
           ++ apply Z.divide_sub_r; [exact Hdiv | now exists 1].
           ++ apply Z.divide_0_r.
    + constructor; cbn [set_answered data currentIndex score isAnswered b2z].
      * exact Hd.
      * exact Hi.
      * exact Hlo.
      * unfold b2z in Hhi. lia.
      * exact Hdiv.
  - (* nextQuestion *)
    unfold nextQuestion. rewrite Hd.
    destruct (Z.of_nat (currentIndex s) <? Z.of_nat (List.length qs) - 1)
      eqn:Hlt.
    + apply Z.ltb_lt in Hlt.
      constructor; simpl; auto; unfold b2z in *;
        destruct (isAnswered s); lia.
    + now constructor.
  - (* setPlayerName *)
    now constructor.
  - (* handleSaveScore *)
    unfold handleSaveScore.
    destruct (blank (playerName s)); now constructor.
Qed.

Lemma run_in_game :
  forall qs evs s,
    forallb no_reload evs = true -> in_game qs s -> in_game qs (run evs s).
Proof.
  intros qs evs. induction evs as [| e evs IH]; intros s Hno Hin; simpl.
  - exact Hin.
  - simpl in Hno. apply andb_true_iff in Hno. destruct Hno as [He Hevs].
    apply IH; [exact Hevs |]. now apply step_in_game.
Qed.

Lemma loaded_in_game :
  forall topic difficulty stored qs,
    qs <> [] -> in_game qs (loaded qs (initial topic difficulty stored)).
Proof.
  intros topic difficulty stored qs Hne.
  constructor; simpl; try lia.
  - reflexivity.
  - destruct qs; [contradiction | simpl; lia].
  - apply Z.divide_0_r.
Qed.

(** Once a non-empty list of questions is loaded, the current question
    always exists, whatever the player clicks: [currentIndex] stays below
    the number of questions, so [data.questions[currentIndex]] is never
    undefined and the progress bar stays below 100 percent. *)
Theorem current_question_always_exists :
  forall (topic difficulty : string) (stored : list LeaderboardEntry)
         (qs : list Question) (evs : list Event),
    qs <> [] ->
    forallb no_reload evs = true ->
    let s := run evs (loaded qs (initial topic difficulty stored)) in
    data s = Some qs /\
    (currentIndex s < List.length qs)%nat /\
    exists currentQ, nth_error qs (currentIndex s) = Some currentQ.
Proof.
  intros topic difficulty stored qs evs Hne Hno s.
  destruct (run_in_game qs evs _ Hno
              (loaded_in_game topic difficulty stored qs Hne))
    as [Hd Hi _ _ _].
  fold s in Hd, Hi.
  split; [exact Hd |]. split; [exact Hi |].
  destruct (nth_error qs (currentIndex s)) as [q |] eqn:Hq.
  - now exists q.
  - apply nth_error_None in Hq. lia.
Qed.

(** Each question can be scored once: the score never exceeds 100 points
    per question of the quiz, and it is always a multiple of 20. *)
Theorem score_at_most_100_per_question :
  forall (topic difficulty : string) (stored : list LeaderboardEntry)
         (qs : list Question) (evs : list Event),
    qs <> [] ->
    forallb no_reload evs = true ->
    let s := run evs (loaded qs (initial topic difficulty stored)) in
    0 <= score s <= 100 * Z.of_nat (List.length qs) /\ (20 | score s).
Proof.
  intros topic difficulty stored qs evs Hne Hno s.
  destruct (run_in_game qs evs _ Hno
              (loaded_in_game topic difficulty stored qs Hne))
    as [_ Hi Hlo Hhi Hdiv].
  fold s in Hi, Hlo, Hhi, Hdiv.
  split; [| exact Hdiv].
  split; [exact Hlo |].
  unfold b2z in Hhi. destruct (isAnswered s); lia.
Qed.

(** ** Where a saved score lands *)

Definition at_least (e : LeaderboardEntry) (x : LeaderboardEntry) : bool :=
  Types.score e <=? Types.score x.

Definition below (e : LeaderboardEntry) (x : LeaderboardEntry) : bool :=
  Types.score x <? Types.score e.

Lemma sort_sorted_id :
  forall l, StronglySorted desc l -> sort l = l.
Proof.
  intros l Hs. induction Hs as [| x tl Hs IH Hall]; simpl; [reflexivity |].
  rewrite IH. destruct tl as [| y tl']; [reflexivity |].
  apply insert_before_not_higher.
  inversion Hall; subst. assumption.
Qed.

Lemma filter_all :
  forall (A : Type) (f : A -> bool) (l : list A),
    Forall (fun x => f x = true) l -> filter f l = l.
Proof.
  intros A f l H. induction H as [| x l Hx Hl IH]; simpl; [reflexivity |].
  now rewrite Hx, IH.
Qed.

Lemma filter_none :
  forall (A : Type) (f : A -> bool) (l : list A),
    Forall (fun x => f x = false) l -> filter f l = [].
Proof.
  intros A f l H. induction H as [| x l Hx Hl IH]; simpl; [reflexivity |].
  now rewrite Hx, IH.
Qed.

(** Sorting a sorted board with one entry appended puts the entry behind
    every entry that scores at least as much and in front of the rest. *)
Lemma sort_append :
  forall (e : LeaderboardEntry) (l : list LeaderboardEntry),
    StronglySorted desc l ->
    sort (l ++ [e]) = filter (at_least e) l ++ e :: filter (below e) l.
Proof.
  intros e l Hs. induction Hs as [| x tl Hs IH Hall]; simpl; [reflexivity |].
  rewrite IH. unfold at_least, below in *.
  destruct (Types.score e <=? Types.score x) eqn:Hex.
  - apply Z.leb_le in Hex.
    assert (Hlt : (Types.score x <? Types.score e) = false)
      by (apply Z.ltb_ge; exact Hex).
    rewrite Hlt.
    destruct (filter (fun x0 => Types.score e <=? Types.score x0) tl)
      as [| y hi] eqn:Hhi; simpl.
    + apply insert_before_not_higher. exact Hex.
    + apply insert_before_not_higher.
      assert (Hy : In y tl).
      { assert (In y (y :: hi)) as Hin by now left.
        rewrite <- Hhi in Hin. now apply filter_In in Hin. }
      rewrite Forall_forall in Hall. exact (Hall y Hy).
  - apply Z.leb_gt in Hex.
    assert (Hlt : (Types.score x <? Types.score e) = true)
      by (apply Z.ltb_lt; exact Hex).
    rewrite Hlt.
    assert (Hlow : Forall (fun y => Types.score y < Types.score e) tl).
    { eapply Forall_impl; [| exact Hall]. unfold desc. intros y Hy. lia. }
    rewrite (filter_none _ _ tl), (filter_all _ _ tl).
    + cbn [app]. rewrite insert_after_higher by exact Hex.
      f_equal. destruct tl as [| y tl']; [reflexivity |].
      apply insert_before_not_higher.
      inversion Hall; subst. assumption.
    + eapply Forall_impl; [| exact Hlow]. intros y Hy. now apply Z.ltb_lt.
    + eapply Forall_impl; [| exact Hlow]. intros y Hy. now apply Z.leb_gt.
Qed.

(** The entry [handleSaveScore] builds. *)
Definition entry_of (now : string) (s : State) : LeaderboardEntry :=
  mkEntry (playerName s) (score s) (p_topic s) (p_difficulty s) now.

Lemma save_position :
  forall (now : string) (s : State),
    blank (playerName s) = false ->
    StronglySorted desc (leaderboard s) ->
    leaderboard (handleSaveScore now s) =
      firstn 50
        (filter (at_least (entry_of now s)) (leaderboard s)
           ++ entry_of now s :: filter (below (entry_of now s)) (leaderboard s)).
Proof.
  intros now s Hname Hs.
  unfold handleSaveScore. rewrite Hname. cbn [leaderboard].
  unfold slice50. fold (entry_of now s).
  now rewrite sort_append.
Qed.

(** Saving into a board that is in descending order keeps the stored
    entries in their order and puts the new entry behind every stored
    entry that scores at least as much (ties go to the older entry) and in
    front of those that score less; the first 50 of that list are kept. *)
Theorem save_inserts_behind_ties :
  forall (now : string) (s : State),
    blank (playerName s) = false ->
    StronglySorted desc (leaderboard s) ->
    leaderboard (handleSaveScore now s) =
      firstn 50
        (filter (at_least (entry_of now s)) (leaderboard s)
           ++ entry_of now s :: filter (below (entry_of now s)) (leaderboard s)).
Proof.
  exact save_position.
Qed.

Lemma split_by_score :
  forall (e : LeaderboardEntry) (l : list LeaderboardEntry),
    (List.length (filter (at_least e) l) + List.length (filter (below e) l)
     = List.length l)%nat.
Proof.
  intros e l. induction l as [| x l IH]; simpl; [reflexivity |].
  unfold at_least, below in *.
  destruct (Types.score e <=? Types.score x) eqn:H1;
    destruct (Types.score x <? Types.score e) eqn:H2; simpl;
    rewrite ?Z.leb_le, ?Z.leb_gt in H1; rewrite ?Z.ltb_lt, ?Z.ltb_ge in H2;
    lia.
Qed.

(** On a board of at most 50 entries in descending order: a full board is
    left exactly as it is by a score that does not beat its lowest entry,
    a tie included; a score that beats some stored entry, or any score
    when the board has room, is in the stored list afterwards. *)
Theorem board_admits_only_better_scores :
  forall (now : string) (s : State),
    blank (playerName s) = false ->
    StronglySorted desc (leaderboard s) ->
    (List.length (leaderboard s) <= 50)%nat ->
    (List.length (leaderboard s) = 50%nat ->
     Forall (fun x => score s <= Types.score x) (leaderboard s) ->
     leaderboard (handleSaveScore now s) = leaderboard s) /\
    ((List.length (leaderboard s) < 50)%nat \/
     Exists (fun x => Types.score x < score s) (leaderboard s) ->
     In (entry_of now s) (leaderboard (handleSaveScore now s))).
Proof.
  intros now s Hname Hs Hcap.
  rewrite (save_position now s Hname Hs).
  split.
  - intros Hlen Hall.
    rewrite (filter_all _ (at_least (entry_of now s)) (leaderboard s)).
    + rewrite firstn_app, <- Hlen, firstn_all, Nat.sub_diag. simpl.
      apply app_nil_r.
    + eapply Forall_impl; [| exact Hall].
      intros x Hx. unfold at_least. simpl. now apply Z.leb_le.
  - intro Hroom.
    pose proof (split_by_score (entry_of now s) (leaderboard s)) as Hsplit.
    set (hi := filter (at_least (entry_of now s)) (leaderboard s)) in *.
    set (lo := filter (below (entry_of now s)) (leaderboard s)) in *.
    assert (Hhi : (List.length hi < 50)%nat).
    { destruct Hroom as [Hlt | Hex]; [lia |].
      assert (Hlo : (0 < List.length lo)%nat).
      { apply Exists_exists in Hex. destruct Hex as (x & Hx & Hlt).
        assert (Hin : In x lo).
        { subst lo. apply filter_In. split; [exact Hx |].
          unfold below. simpl. now apply Z.ltb_lt. }
        destruct lo; [destruct Hin | simpl; lia]. }
      lia. }
    rewrite firstn_app. apply in_or_app. right.
    replace (50 - List.length hi)%nat with (S (49 - List.length hi)) by lia.
    simpl. now left.
Qed.

(** However many scores are saved, starting from an empty store, the
    board stays in descending order and never grows beyond 50 entries. *)
Theorem board_stays_sorted_and_capped :
  forall (topic difficulty : string) (evs : list Event),
    let s := run evs (initial topic difficulty []) in
    StronglySorted desc (leaderboard s) /\
    (List.length (leaderboard s) <= 50)%nat.
Proof.
  intros topic difficulty evs.
  assert (Hinv : forall l s,
             StronglySorted desc (leaderboard s) /\
             (List.length (leaderboard s) <= 50)%nat ->
             StronglySorted desc (leaderboard (run l s)) /\
             (List.length (leaderboard (run l s)) <= 50)%nat).
  { induction l as [| e l IH]; intros s H; simpl; [exact H |].
    apply IH. destruct e as [qs | o | | n | now]; simpl; try exact H.
    - unfold handleAnswer.
      destruct (isAnswered s); [exact H |].
      destruct (data s) as [qs |]; [| exact H].
      destruct (nth_error qs (currentIndex s)) as [q |]; [| exact H].
      destruct (String.eqb o (correctAnswer q)); exact H.
    - unfold nextQuestion.
      destruct (data s) as [qs |]; [| exact H].
      destruct (_ <? _); exact H.
    - unfold handleSaveScore.
      destruct (blank (playerName s)); [exact H |].
      cbn [leaderboard]. unfold slice50. split.
      + apply firstn_sorted, sort_sorted.
      + apply firstn_le_length. }
  apply Hinv. simpl. split; [constructor | lia].
Qed.

(** ** Instances *)

Local Open Scope string_scope.

Definition three_questions : list Question := [q1; q1; q1].

Definition clicks : list Event :=
  [Answer "Mars"; Answer "Mars"; Next; Answer "Venus"; Next; Next; Next;
   Answer "Mars"; SetName "dee"].

Lemma current_question_always_exists_witness :
  three_questions <> [] /\
  forallb no_reload clicks = true /\
  (currentIndex
     (run clicks (loaded three_questions (initial "Space" "Easy" [])))
   < 3)%nat.
Proof.
  split; [discriminate |]. split; [reflexivity |].
  exact (proj1 (proj2 (current_question_always_exists "Space" "Easy" []
                         three_questions clicks
                         ltac:(discriminate) eq_refl))).
Defined.

Lemma score_at_most_100_per_question_witness :
  three_questions <> [] /\
  forallb no_reload clicks = true /\
  score (run clicks (loaded three_questions (initial "Space" "Easy" []))) = 180
  /\
  score (run clicks (loaded three_questions (initial "Space" "Easy" []))) <= 300.
Proof.
  split; [discriminate |]. split; [reflexivity |]. split; [reflexivity |].
  exact (proj2 (proj1 (score_at_most_100_per_question "Space" "Easy" []
                         three_questions clicks
                         ltac:(discriminate) eq_refl))).
Defined.

(** The board of the earlier example: a new score of 100 ties with bob. *)
Lemma save_inserts_behind_ties_witness :
  blank (playerName finished) = false /\
  StronglySorted desc (leaderboard finished) /\
  map name (leaderboard (handleSaveScore "2024-01-03T00:00:00.000Z" finished))
  = ["ada"; "bob"; "cy"].
Proof.
  split; [reflexivity |].
  assert (Hs : StronglySorted desc (leaderboard finished)).
  { repeat constructor; unfold desc; simpl; lia. }
  split; [exact Hs |].
  rewrite (save_inserts_behind_ties "2024-01-03T00:00:00.000Z" finished
             eq_refl Hs).
  reflexivity.
Defined.

(** Fifty entries of 100 points, and a player who also scored 100. *)
Definition full_board : list LeaderboardEntry :=
  repeat (mkEntry "ada" 100 "Space" "Easy" "2024-01-01T00:00:00.000Z") 50.

Definition latecomer : State :=
  run [Loaded [q1]; Answer "Mars"; Next; SetName "cy"]
      (initial "Space" "Easy" full_board).

Lemma board_admits_only_better_scores_witness :
  blank (playerName latecomer) = false /\
  StronglySorted desc (leaderboard latecomer) /\
  (List.length (leaderboard latecomer) <= 50)%nat /\
  score latecomer = 100 /\
  leaderboard (handleSaveScore "2024-01-03T00:00:00.000Z" latecomer)
  = full_board.
Proof.
  split; [reflexivity |].
  assert (Hs : StronglySorted desc (leaderboard latecomer)).
  { change (leaderboard latecomer) with full_board. unfold full_board.
    generalize 50%nat. intro n. induction n as [| n IH]; simpl.
    - constructor.
    - constructor; [exact IH |].
      apply Forall_forall. intros x Hx. apply repeat_spec in Hx. subst x.
      unfold desc. simpl. lia. }
  split; [exact Hs |].
  assert (Hcap : (List.length (leaderboard latecomer) <= 50)%nat).
  { change (leaderboard latecomer) with full_board. unfold full_board.
    rewrite repeat_length. lia. }
  split; [exact Hcap |]. split; [reflexivity |].
  refine (proj1 (board_admits_only_better_scores
                   "2024-01-03T00:00:00.000Z" latecomer eq_refl Hs Hcap) _ _).
  - change (leaderboard latecomer) with full_board. unfold full_board.
    apply repeat_length.
  - change (leaderboard latecomer) with full_board. unfold full_board.
    apply Forall_forall. intros x Hx. apply repeat_spec in Hx. subst x.
    simpl. lia.
Defined.

End QuizFacts.

(* ================================================================== *)
(** * Spoken audio in the visual quiz *)
(* ================================================================== *)

Module Speech.

Open Scope nat_scope.

(** What [source.onended] is set to: the handler [playBuffer] installs,
    or the one [playAudio] installs with its [myId]. *)
Inductive Handler : Type :=
| FromBuffer
| FromSpeech (myId : nat).

Record State : Type := mkState {
  audioContext : bool;                  (* the state variable is set *)
  currentAudioSourceRef : option nat;
  audioGenerationIdRef : nat;
  speaking : bool;
  playing : list nat;       (* sources started, not yet stopped or ended *)
  onended : list (nat * Handler);
  pending : list nat;       (* [myId] of the calls awaiting their speech *)
  fresh : nat               (* identity of the next source node *)
}.

(** [useRef(null)], [useRef(0)], [useState(false)]; the context is
    created by the mount effect. *)
Definition initial : State := mkState false None 0 false [] [] [] 0.

Definition remove (n : nat) (l : list nat) : list nat :=
  filter (fun m => negb (Nat.eqb m n)) l.

(** [setAudioContext(ctx)] *)
Definition contextReady (s : State) : State :=
  mkState true (currentAudioSourceRef s) (audioGenerationIdRef s)
          (speaking s) (playing s) (onended s) (pending s) (fresh s).

(** [stopCurrentAudio]: [stop()] inside [try], the ref cleared,
    [setSpeaking(false)]. *)
Definition stopCurrentAudio (s : State) : State :=
  match currentAudioSourceRef s with
  | Some n =>
      mkState (audioContext s) None (audioGenerationIdRef s) false
              (remove n (playing s)) (onended s) (pending s) (fresh s)
  | None =>
      mkState (audioContext s) None (audioGenerationIdRef s) false
              (playing s) (onended s) (pending s) (fresh s)
  end.

(** [playBuffer] *)
Definition playBuffer (s : State) : State :=
  if negb (audioContext s) then s
  else
    let s1 := stopCurrentAudio s in
    mkState (audioContext s1) (Some (fresh s1)) (audioGenerationIdRef s1)
            true (playing s1 ++ [fresh s1])
            ((fresh s1, FromBuffer) :: onended s1) (pending s1)
            (S (fresh s1)).

(** [playAudio] up to [await playTextToSpeech(...)]. *)
Definition playAudio (s : State) : State :=
  if negb (audioContext s) then s
  else
    let myId := S (audioGenerationIdRef s) in
    let s1 := stopCurrentAudio
                (mkState (audioContext s) (currentAudioSourceRef s) myId
                         (speaking s) (playing s) (onended s) (pending s)
                         (fresh s)) in
    mkState (audioContext s1) (currentAudioSourceRef s1)
            (audioGenerationIdRef s1) true (playing s1) (onended s1)
            (pending s1 ++ [myId]) (fresh s1).

(** [playTextToSpeech] resolves for the call [myId] and [playAudio]
    continues.  With [ok] the speech was synthesised: the source has been
    created and started before [playAudio] looks at it; without, the
    result is [null]. *)
Definition synthesised (myId : nat) (ok : bool) (s : State) : State :=
  if negb (existsb (Nat.eqb myId) (pending s)) then s
  else
    let pending' := remove myId (pending s) in
    if ok then
      let source := fresh s in
      if negb (Nat.eqb myId (audioGenerationIdRef s)) then
        (* started by playTextToSpeech, stopped at once *)
        mkState (audioContext s) (currentAudioSourceRef s)
                (audioGenerationIdRef s) (speaking s)
                (playing s) (onended s) pending' (S (fresh s))
      else
        mkState (audioContext s) (Some source) (audioGenerationIdRef s)
                (speaking s) (playing s ++ [source])
                ((source, FromSpeech myId) :: onended s) pending'
                (S (fresh s))
    else
      if negb (Nat.eqb myId (audioGenerationIdRef s)) then
        mkState (audioContext s) (currentAudioSourceRef s)
                (audioGenerationIdRef s) (speaking s)
                (playing s) (onended s) pending' (fresh s)
      else
        mkState (audioContext s) (currentAudioSourceRef s)
                (audioGenerationIdRef s) false
                (playing s) (onended s) pending' (fresh s).

Fixpoint handler_of (n : nat) (l : list (nat * Handler)) : option Handler :=
  match l with
  | [] => None
  | (m, h) :: tl => if Nat.eqb m n then Some h else handler_of n tl
  end.

(** The [ended] event of source [n]: it plays no longer, and its
    [onended], if it has one, runs. *)
Definition ended (n : nat) (s : State) : State :=
  let playing' := remove n (playing s) in
  match handler_of n (onended s) with
  | Some FromBuffer =>
      mkState (audioContext s) None (audioGenerationIdRef s) false
              playing' (onended s) (pending s) (fresh s)
  | Some (FromSpeech myId) =>
      if Nat.eqb myId (audioGenerationIdRef s)
      then mkState (audioContext s) None (audioGenerationIdRef s) false
                   playing' (onended s) (pending s) (fresh s)
      else mkState (audioContext s) (currentAudioSourceRef s)
                   (audioGenerationIdRef s) (speaking s)
                   playing' (onended s) (pending s) (fresh s)
  | None =>
      mkState (audioContext s) (currentAudioSourceRef s)
              (audioGenerationIdRef s) (speaking s)
              playing' (onended s) (pending s) (fresh s)
  end.

Inductive Event : Type :=
| ContextReady
| PlayBuffer
| PlayAudio
| Synthesised (myId : nat) (ok : bool)
| StopCurrentAudio
| Ended (n : nat).

Definition step (e : Event) (s : State) : State :=
  match e with
  | ContextReady => contextReady s
  | PlayBuffer => playBuffer s
  | PlayAudio => playAudio s
  | Synthesised myId ok => synthesised myId ok s
  | StopCurrentAudio => stopCurrentAudio s
  | Ended n => ended n s
  end.

Definition run (evs : list Event) (s : State) : State :=
  fold_left (fun acc e => step e acc) evs s.

Definition not_playBuffer (e : Event) : bool :=
  match e with
  | PlayBuffer => false
  | _ => true
  end.

(** ** What holds as long as only [playAudio] starts sources *)

Record sound (s : State) : Prop := mkSound {
  one_playing :
    forall n, In n (playing s) -> currentAudioSourceRef s = Some n;
  playing_nodup : NoDup (playing s);
  pending_old :
    forall id, In id (pending s) -> id <= audioGenerationIdRef s;
  pending_nodup : NoDup (pending s);
  handlers_old :
    forall n id, handler_of n (onended s) = Some (FromSpeech id) ->
                 id <= audioGenerationIdRef s;
  no_buffer_handler :
    forall n, handler_of n (onended s) <> Some FromBuffer;
  awaiting :
    In (audioGenerationIdRef s) (pending s) ->
    playing s = [] /\
    forall n, handler_of n (onended s)
              <> Some (FromSpeech (audioGenerationIdRef s));
  handler_current :
    forall n, handler_of n (onended s)
              = Some (FromSpeech (audioGenerationIdRef s)) ->
              forall m, In m (playing s) -> m = n
}.

Lemma remove_In :
  forall n m l, In m (remove n l) <-> In m l /\ m <> n.
Proof.
  intros n m l. unfold remove. rewrite filter_In.
  rewrite negb_true_iff, Nat.eqb_neq. reflexivity.
Qed.

Lemma remove_NoDup : forall n l, NoDup l -> NoDup (remove n l).
Proof. intros n l H. now apply NoDup_filter. Qed.

Lemma no_member_nil : forall (l : list nat), (forall n, ~ In n l) -> l = [].
Proof.
  intros [| x l] H; [reflexivity |]. exfalso. apply (H x). now left.
Qed.

Lemma In_pending :
  forall id l, existsb (Nat.eqb id) l = true <-> In id l.
Proof.
  intros id l. rewrite existsb_exists. split.
  - intros (x & Hx & He). apply Nat.eqb_eq in He. now subst.
  - intro H. exists id. split; [exact H | apply Nat.eqb_refl].
Qed.

Lemma stopCurrentAudio_silent :
  forall s, sound s -> playing (stopCurrentAudio s) = [].
Proof.
  intros s Hs. apply no_member_nil. intros m Hm.
  unfold stopCurrentAudio in Hm.
  destruct (currentAudioSourceRef s) as [n |] eqn:Hc; simpl in Hm.
  - apply remove_In in Hm. destruct Hm as [Hm Hne].
    apply (one_playing s Hs) in Hm. congruence.
  - apply (one_playing s Hs) in Hm. congruence.
Qed.

Lemma stopCurrentAudio_fields :
  forall s,
    audioGenerationIdRef (stopCurrentAudio s) = audioGenerationIdRef s /\
    pending (stopCurrentAudio s) = pending s /\
    onended (stopCurrentAudio s) = onended s /\
    currentAudioSourceRef (stopCurrentAudio s) = None /\
    audioContext (stopCurrentAudio s) = audioContext s.
Proof.
  intro s. unfold stopCurrentAudio.
  destruct (currentAudioSourceRef s); repeat split.
Qed.

Lemma stopCurrentAudio_sound :
  forall s, sound s -> sound (stopCurrentAudio s).
Proof.
  intros s Hs.
  pose proof (stopCurrentAudio_silent s Hs) as Hp.
  destruct (stopCurrentAudio_fields s) as (Hg & Hpe & Ho & Hc & _).
  constructor; rewrite ?Hp, ?Hg, ?Hpe, ?Ho.
  - intros n [].
  - constructor.
  - apply (pending_old s Hs).
  - apply (pending_nodup s Hs).
  - apply (handlers_old s Hs).
  - apply (no_buffer_handler s Hs).
  - intro Hin. split; [reflexivity |]. now apply (awaiting s Hs).
  - intros n _ m [].
Qed.

Lemma playAudio_sound : forall s, sound s -> sound (playAudio s).
Proof.
  intros s Hs. unfold playAudio.
  destruct (audioContext s); [| exact Hs]. cbn [negb].
  set (s0 := mkState true (currentAudioSourceRef s)
                     (S (audioGenerationIdRef s)) (speaking s) (playing s)
                     (onended s) (pending s) (fresh s)).
  assert (Hp : playing (stopCurrentAudio s0) = []).
  { apply no_member_nil. intros m Hm. unfold stopCurrentAudio in Hm.
    subst s0. cbn [currentAudioSourceRef playing] in Hm.
    destruct (currentAudioSourceRef s) as [n |] eqn:Hc; simpl in Hm.
    - apply remove_In in Hm. destruct Hm as [Hm Hne].
      apply (one_playing s Hs) in Hm. congruence.
    - apply (one_playing s Hs) in Hm. congruence. }
  destruct (stopCurrentAudio_fields s0) as (Hg & Hpe & Ho & Hc & _).
  constructor; cbn [playing currentAudioSourceRef audioGenerationIdRef
                      pending onended];
    rewrite ?Hp, ?Hg, ?Hpe, ?Ho; subst s0;
    cbn [audioGenerationIdRef pending onended].
  - intros n [].
  - constructor.
  - intros id Hin. apply in_app_or in Hin.
    destruct Hin as [Hin | [<- | []]]; [| lia].
    apply (pending_old s Hs) in Hin. lia.
  - assert (Hfresh : ~ In (S (audioGenerationIdRef s)) (pending s)).
    { intro Hin. apply (pending_old s Hs) in Hin. lia. }
    clear - Hs Hfresh. pose proof (pending_nodup s Hs) as Hnd.
    induction (pending s) as [| x l IH]; simpl.
    + constructor; [intros [] | constructor].
    + inversion Hnd; subst. constructor.
      * intro Hin. apply in_app_or in Hin.
        destruct Hin as [Hin | [Hin | []]]; [contradiction |].
        apply Hfresh. now left.
      * apply IH; [| assumption]. intro Hin. apply Hfresh. now right.
  - intros n id H. apply (handlers_old s Hs) in H. lia.
  - apply (no_buffer_handler s Hs).
  - intros _. split; [reflexivity |].
    intros n H. apply (handlers_old s Hs) in H. lia.
  - intros n _ m [].
Qed.

Lemma synthesised_sound :
  forall myId ok s, sound s -> sound (synthesised myId ok s).
Proof.
  intros myId ok s Hs. unfold synthesised.
  destruct (existsb (Nat.eqb myId) (pending s)) eqn:Hin; [| exact Hs].
  cbn [negb]. apply In_pending in Hin.
  assert (Hrest : forall id, In id (remove myId (pending s)) ->
                             id <= audioGenerationIdRef s).
  { intros id H. apply remove_In in H. now apply (pending_old s Hs). }
  assert (Hnd : NoDup (remove myId (pending s)))
    by apply remove_NoDup, (pending_nodup s Hs).
  destruct (Nat.eqb myId (audioGenerationIdRef s)) eqn:Hgen; cbn [negb].
  - (* the call of the current generation *)
    apply Nat.eqb_eq in Hgen. subst myId.
    destruct (awaiting s Hs Hin) as [Hquiet Hnone].
    assert (Hgone : ~ In (audioGenerationIdRef s)
                      (remove (audioGenerationIdRef s) (pending s))).
    { intro H. apply remove_In in H. now destruct H. }
    destruct ok.
    + constructor;
        cbn [playing currentAudioSourceRef audioGenerationIdRef pending
               onended handler_of];
        rewrite ?Hquiet; cbn [app].
      * intros n [<- | []]. reflexivity.
      * constructor; [intros [] | constructor].
      * exact Hrest.
      * exact Hnd.
      * intros n id. destruct (Nat.eqb (fresh s) n).
        -- intro H. injection H as <-. lia.
        -- apply (handlers_old s Hs).
      * intro n. destruct (Nat.eqb (fresh s) n); [discriminate |].
        apply (no_buffer_handler s Hs).
      * intro H. contradiction.
      * intros n. destruct (Nat.eqb (fresh s) n) eqn:Hn.
        -- apply Nat.eqb_eq in Hn. subst n. intros _ m [<- | []].
           reflexivity.
        -- intro H. exfalso. now apply (Hnone n).
    + constructor;
        cbn [playing currentAudioSourceRef audioGenerationIdRef pending
               onended];
        rewrite ?Hquiet.
      * intros n [].
      * constructor.
      * exact Hrest.
      * exact Hnd.
      * apply (handlers_old s Hs).
      * apply (no_buffer_handler s Hs).
      * intro H. contradiction.
      * intros n _ m [].
  - (* a superseded call *)
    assert (Hkeep : In (audioGenerationIdRef s) (remove myId (pending s)) ->
                    In (audioGenerationIdRef s) (pending s)).
    { intro H. apply remove_In in H. now destruct H. }
    destruct ok; constructor;
      cbn [playing currentAudioSourceRef audioGenerationIdRef pending
             onended];
      first [ apply (one_playing s Hs) | apply (playing_nodup s Hs)
            | exact Hrest | exact Hnd
            | apply (handlers_old s Hs) | apply (no_buffer_handler s Hs)
            | apply (handler_current s Hs)
            | intro H; apply (awaiting s Hs); now apply Hkeep ].
Qed.

Lemma ended_sound : forall n s, sound s -> sound (ended n s).
Proof.
  intros n s Hs. unfold ended.
  assert (Hsub : forall m, In m (remove n (playing s)) -> In m (playing s)).
  { intros m H. apply remove_In in H. now destruct H. }
  assert (Hnd : NoDup (remove n (playing s)))
    by apply remove_NoDup, (playing_nodup s Hs).
  assert (Hsame :
            sound (mkState (audioContext s) (currentAudioSourceRef s)
                     (audioGenerationIdRef s) (speaking s)
                     (remove n (playing s)) (onended s) (pending s)
                     (fresh s))).
  { constructor; simpl; auto.
    - intros m Hm. apply (one_playing s Hs). now apply Hsub.
    - apply (pending_old s Hs).
    - apply (pending_nodup s Hs).
    - apply (handlers_old s Hs).
    - apply (no_buffer_handler s Hs).
    - intro Hin. destruct (awaiting s Hs Hin) as [Hq Hn].
      split; [now rewrite Hq | exact Hn].
    - intros k Hk m Hm. apply (handler_current s Hs k Hk). now apply Hsub. }
  destruct (handler_of n (onended s)) as [[| myId] |] eqn:Hh.
  - exfalso. now apply (no_buffer_handler s Hs n).
  - destruct (Nat.eqb myId (audioGenerationIdRef s)) eqn:Hgen;
      [| exact Hsame].
    apply Nat.eqb_eq in Hgen. subst myId.
    assert (Hempty : remove n (playing s) = []).
    { apply no_member_nil. intros m Hm. apply remove_In in Hm.
      destruct Hm as [Hm Hne]. apply Hne.
      now apply (handler_current s Hs n Hh). }
    constructor; simpl; rewrite ?Hempty.
    + intros m [].
    + constructor.
    + apply (pending_old s Hs).
    + apply (pending_nodup s Hs).
    + apply (handlers_old s Hs).
    + apply (no_buffer_handler s Hs).
    + intro Hin. split; [reflexivity | now apply (awaiting s Hs)].
    + intros k _ m [].
  - exact Hsame.
Qed.

Lemma step_sound :
  forall e s, not_playBuffer e = true -> sound s -> sound (step e s).
Proof.
  intros [| | | myId ok | | n] s He Hs; simpl in *; try discriminate He.
  - destruct Hs. now constructor.
  - now apply playAudio_sound.
  - now apply synthesised_sound.
  - now apply stopCurrentAudio_sound.
  - now apply ended_sound.
Qed.

Lemma initial_sound : sound initial.
Proof.
  constructor; simpl.
  - intros n [].
  - constructor.
  - intros id [].
  - constructor.
  - intros n id H. discriminate H.
  - intros n H. discriminate H.
  - intros [].
  - intros n H. discriminate H.
Qed.

(** As long as sources are started by [playAudio] only, at most one
    source plays at any time and it is the one in
    [currentAudioSourceRef]: a new [playAudio] or a [stopCurrentAudio]
    silences what was playing, and speech that arrives for a superseded
    call never plays on. *)
Theorem speech_never_overlaps :
  forall evs : list Event,
    forallb not_playBuffer evs = true ->
    let s := run evs initial in
    List.length (playing s) <= 1 /\
    forall n, In n (playing s) -> currentAudioSourceRef s = Some n.
Proof.
  intros evs Hno s.
  assert (Hs : sound s).
  { subst s. revert Hno. generalize initial_sound. generalize initial.
    induction evs as [| e evs IH]; intros s0 Hs0 Hno; simpl; [exact Hs0 |].
    simpl in Hno. apply andb_true_iff in Hno. destruct Hno as [He Hevs].
    apply IH; [now apply step_sound | exact Hevs]. }
  split; [| apply (one_playing s Hs)].
  pose proof (one_playing s Hs) as Hone.
  pose proof (playing_nodup s Hs) as Hnd.
  destruct (playing s) as [| a [| b l]]; simpl; try lia.
  exfalso. inversion Hnd as [| ? ? Hnotin _]; subst.
  apply Hnotin. left.
  assert (Ha : currentAudioSourceRef s = Some a) by (apply Hone; now left).
  assert (Hb : currentAudioSourceRef s = Some b)
    by (apply Hone; right; now left).
  congruence.
Qed.

(** ** Superseded calls *)

Lemma step_generation :
  forall e s,
    audioGenerationIdRef s <= audioGenerationIdRef (step e s) /\
    (audioContext s = true -> audioContext (step e s) = true).
Proof.
  intros [| | | myId ok | | n] s; simpl.
  - split; [lia | reflexivity].
  - unfold playBuffer. destruct (audioContext s) eqn:Hc; cbn [negb].
    + destruct (stopCurrentAudio_fields s) as (Hg & _ & _ & _ & Ha).
      simpl. rewrite Hg, Ha. split; [lia | auto].
    + split; [lia | intro H; congruence].
  - unfold playAudio. destruct (audioContext s) eqn:Hc; cbn [negb].
    + set (s0 := mkState _ _ (S (audioGenerationIdRef s)) _ _ _ _ _).
      destruct (stopCurrentAudio_fields s0) as (Hg & _ & _ & _ & Ha).
      simpl. rewrite Hg, Ha. subst s0. simpl. split; [lia | auto].
    + split; [lia | intro H; congruence].
  - unfold synthesised.
    destruct (existsb (Nat.eqb myId) (pending s)); cbn [negb];
      [| split; [lia | auto]].
    destruct ok, (Nat.eqb myId (audioGenerationIdRef s)); simpl;
      (split; [lia | auto]).
  - destruct (stopCurrentAudio_fields s) as (Hg & _ & _ & _ & Ha).
    rewrite Hg, Ha. split; [lia | auto].
  - unfold ended.
    destruct (handler_of n (onended s)) as [[| myId] |];
      [| destruct (Nat.eqb myId (audioGenerationIdRef s)) |];
      simpl; (split; [lia | auto]).
Qed.

Lemma run_generation :
  forall evs s,
    audioGenerationIdRef s <= audioGenerationIdRef (run evs s) /\
    (audioContext s = true -> audioContext (run evs s) = true).
Proof.
  induction evs as [| e evs IH]; intro s; simpl; [split; [lia | auto] |].
  destruct (step_generation e s) as [Hg Ha].
  destruct (IH (step e s)) as [Hg' Ha'].
  split; [lia | auto].
Qed.

(** Speech requested by a [playAudio] call that a later [playAudio] has
    superseded is never heard: when it arrives, whatever happened in
    between, what is playing, the current source and the speaking flag
    stay as they are. *)
Theorem superseded_speech_is_dropped :
  forall (evs1 evs2 evs3 : list Event) (ok : bool),
    audioContext (run evs1 initial) = true ->
    let myId := S (audioGenerationIdRef (run evs1 initial)) in
    let s := run (evs1 ++ PlayAudio :: evs2 ++ PlayAudio :: evs3) initial in
    playing (synthesised myId ok s) = playing s /\
    currentAudioSourceRef (synthesised myId ok s) = currentAudioSourceRef s /\
    speaking (synthesised myId ok s) = speaking s.
Proof.
  intros evs1 evs2 evs3 ok Hctx myId s.
  assert (Hlate : myId < audioGenerationIdRef s).
  { subst s myId. unfold run. rewrite fold_left_app. simpl.
    fold (run evs1 initial). set (s1 := run evs1 initial) in *.
    rewrite fold_left_app. simpl.
    fold (run evs2 (playAudio s1)).
    set (s2 := run evs2 (playAudio s1)).
    fold (run evs3 (playAudio s2)).
    assert (H1 : audioGenerationIdRef (playAudio s1)
                 = S (audioGenerationIdRef s1)).
    { unfold playAudio. rewrite Hctx. cbn [negb].
      set (s0 := mkState _ _ (S (audioGenerationIdRef s1)) _ _ _ _ _).
      destruct (stopCurrentAudio_fields s0) as (Hg & _). simpl.
      now rewrite Hg. }
    assert (Hc1 : audioContext (playAudio s1) = true).
    { apply (proj2 (step_generation PlayAudio s1)). exact Hctx. }
    destruct (run_generation evs2 (playAudio s1)) as [Hg2 Hc2].
    fold s2 in Hg2, Hc2. specialize (Hc2 Hc1).
    assert (H2 : audioGenerationIdRef (playAudio s2)
                 = S (audioGenerationIdRef s2)).
    { unfold playAudio. rewrite Hc2. cbn [negb].
      set (s0 := mkState _ _ (S (audioGenerationIdRef s2)) _ _ _ _ _).
      destruct (stopCurrentAudio_fields s0) as (Hg & _). simpl.
      now rewrite Hg. }
    destruct (run_generation evs3 (playAudio s2)) as [Hg3 _].
    lia. }
  unfold synthesised.
  destruct (existsb (Nat.eqb myId) (pending s)); cbn [negb];
    [| repeat split].
  assert (Hne : Nat.eqb myId (audioGenerationIdRef s) = false)
    by (apply Nat.eqb_neq; lia).
  rewrite Hne. cbn [negb]. destruct ok; repeat split.
Qed.

(** ** Instances *)

(** Feedback is requested, the player moves on and the next question is
    requested before the feedback speech arrives. *)
Definition hurried : list Event :=
  [ContextReady; PlayAudio; Synthesised 1 true; StopCurrentAudio;
   PlayAudio; PlayAudio; Synthesised 3 true; Synthesised 2 true; Ended 0].

Lemma speech_never_overlaps_witness :
  forallb not_playBuffer hurried = true /\
  playing (run hurried initial) = [1] /\
  List.length (playing (run hurried initial)) <= 1.
Proof.
  split; [reflexivity |]. split; [reflexivity |].
  exact (proj1 (speech_never_overlaps hurried eq_refl)).
Defined.

Lemma superseded_speech_is_dropped_witness :
  audioContext (run [ContextReady] initial) = true /\
  pending (run ([ContextReady] ++ PlayAudio :: [] ++ PlayAudio :: [])
             initial) = [1; 2] /\
  playing (synthesised 1 true
             (run ([ContextReady] ++ PlayAudio :: [] ++ PlayAudio :: [])
                initial))
  = [].
Proof.
  split; [reflexivity |]. split; [reflexivity |].
  etransitivity.
  - exact (proj1 (superseded_speech_is_dropped [ContextReady] [] [] true
                    eq_refl)).
  - reflexivity.
Defined.

(** [playBuffer] does not advance the generation: speech requested before
    a cached question is played still starts when it arrives, and both
    play. *)
Example cached_question_and_late_feedback :
  playing (run [ContextReady; PlayAudio; PlayBuffer; Synthesised 1 true]
             initial)
  = [0; 1].
Proof. reflexivity. Qed.

End Speech.

(* ================================================================== *)
(** * Cleaning the generated trivia text *)
(* ================================================================== *)

Module Trivia.

Open Scope nat_scope.

(** JavaScript strings, as the sequence of their characters. *)
Definition text : Type := list ascii.

Definition tick : ascii := "`"%char.

(** The two patterns of [generateTriviaQuestions]: three backticks
    followed by [json], and three backticks. *)
Definition fence : text := [tick; tick; tick].
Definition fence_json : text :=
  fence ++ ["j"; "s"; "o"; "n"]%char.

Fixpoint is_prefix (p s : text) : bool :=
  match p, s with
  | [], _ => true
  | _ :: _, [] => false
  | a :: p', b :: s' => Ascii.eqb a b && is_prefix p' s'
  end.

(** [s.replace(/pat/g, '')] for a pattern without metacharacters: scanning
    from the left, every match is dropped and the scan resumes behind it.
    [skip] counts the characters of the current match still to drop. *)
Fixpoint strip (pat : text) (skip : nat) (s : text) : text :=
  match s with
  | [] => []
  | c :: tl =>
      match skip with
      | S k => strip pat k tl
      | O =>
          if is_prefix pat s
          then strip pat (List.length pat - 1) tl
          else c :: strip pat 0 tl
      end
  end.

Definition replace_all (pat s : text) : text := strip pat 0 s.

(** [String.prototype.trim], for the ASCII white space. *)
Fixpoint trim_start (s : text) : text :=
  match s with
  | [] => []
  | c :: tl => if Quiz.is_space c then trim_start tl else s
  end.

Fixpoint trim_end (s : text) : text :=
  match s with
  | [] => []
  | c :: tl =>
      match trim_end tl with
      | [] => if Quiz.is_space c then [] else [c]
      | r => c :: r
      end
  end.

Definition trim (s : text) : text := trim_end (trim_start s).

(** [jsonText.replace(/```json/g, '').replace(/```/g, '').trim()] *)
Definition sanitize (jsonText : text) : text :=
  trim (replace_all fence (replace_all fence_json jsonText)).

(** [pat] occurs somewhere in [s]. *)
Fixpoint occurs (pat s : text) : bool :=
  is_prefix pat s ||
  match s with
  | [] => false
  | _ :: tl => occurs pat tl
  end.

Definition is_tick (c : ascii) : bool := Ascii.eqb tick c.

Definition all_space (s : text) : bool := forallb Quiz.is_space s.

Definition tick_free (s : text) : bool := forallb (fun c => negb (is_tick c)) s.

(** [response.text || "{}"] *)
Definition json_text (response_text : option text) : text :=
  match response_text with
  | Some (c :: tl) => c :: tl
  | _ => ["{"; "}"]%char
  end.

(** ** The scan *)

Lemma strip_skip :
  forall pat s k, strip pat k s = strip pat 0 (skipn k s).
Proof.
  intros pat s. induction s as [| c tl IH]; intros [| k]; simpl; auto.
Qed.

Lemma strip_miss :
  forall pat c tl,
    is_prefix pat (c :: tl) = false ->
    strip pat 0 (c :: tl) = c :: strip pat 0 tl.
Proof.
  intros pat c tl H. simpl strip. now rewrite H.
Qed.

Lemma strip_fence_hit :
  forall rest, strip fence 0 (tick :: tick :: tick :: rest)
               = strip fence 0 rest.
Proof. reflexivity. Qed.

Lemma is_tick_eq : forall c, is_tick c = true -> c = tick.
Proof.
  intros c H. unfold is_tick in H. apply Ascii.eqb_eq in H. now subst.
Qed.

Lemma fence_prefix_inv :
  forall s, is_prefix fence s = true ->
            exists rest, s = tick :: tick :: tick :: rest.
Proof.
  intros s H. unfold fence in H.
  destruct s as [| a [| b [| c rest]]]; cbn [is_prefix] in H;
    rewrite ?andb_false_r in H; try discriminate H.
  apply andb_true_iff in H. destruct H as [Ha H].
  apply andb_true_iff in H. destruct H as [Hb H].
  apply andb_true_iff in H. destruct H as [Hc _].
  apply Ascii.eqb_eq in Ha, Hb, Hc. subst a b c.
  now exists rest.
Qed.

(** Two backticks do not come together at the front of the output unless
    they did so in the input. *)
Lemma strip_keeps_pair_apart :
  forall tl,
    is_prefix [tick; tick] tl = false ->
    is_prefix [tick; tick] (strip fence 0 tl) = false.
Proof.
  intros [| a tl2] H; [reflexivity |].
  destruct (is_prefix fence (a :: tl2)) eqn:Hf.
  - apply fence_prefix_inv in Hf. destruct Hf as [rest Hf].
    injection Hf as -> ->. cbn [is_prefix] in H.
    rewrite !Ascii.eqb_refl in H. discriminate H.
  - rewrite (strip_miss _ _ _ Hf).
    cbn [is_prefix] in *.
    destruct (Ascii.eqb tick a) eqn:Ha; [| reflexivity].
    cbn [andb] in *.
    destruct tl2 as [| x tl3]; [reflexivity |].
    cbn [is_prefix] in H. rewrite andb_true_r in H.
    assert (Hx : is_prefix fence (x :: tl3) = false).
    { unfold fence. cbn [is_prefix]. now rewrite H. }
    rewrite (strip_miss _ _ _ Hx). cbn [is_prefix]. now rewrite H.
Qed.

Lemma replace_all_fence_bounded :
  forall n s, List.length s <= n -> occurs fence (strip fence 0 s) = false.
Proof.
  induction n as [| n IH]; intros s Hn.
  - destruct s; [reflexivity | simpl in Hn; lia].
  - destruct s as [| c tl]; [reflexivity |].
    destruct (is_prefix fence (c :: tl)) eqn:Hf.
    + apply fence_prefix_inv in Hf. destruct Hf as [rest Hf].
      rewrite Hf, strip_fence_hit. apply IH.
      rewrite Hf in Hn. simpl in Hn. lia.
    + rewrite (strip_miss _ _ _ Hf).
      assert (Htl : occurs fence (strip fence 0 tl) = false).
      { apply IH. simpl in Hn. lia. }
      change (occurs fence (c :: strip fence 0 tl))
        with (is_prefix fence (c :: strip fence 0 tl)
              || occurs fence (strip fence 0 tl)).
      rewrite Htl, orb_false_r.
      change (is_prefix fence (c :: strip fence 0 tl))
        with (Ascii.eqb tick c && is_prefix [tick; tick] (strip fence 0 tl)).
      destruct (Ascii.eqb tick c) eqn:Hc; [| reflexivity].
      simpl. apply strip_keeps_pair_apart.
      change (is_prefix fence (c :: tl))
        with (Ascii.eqb tick c && is_prefix [tick; tick] tl) in Hf.
      now rewrite Hc in Hf.
Qed.

(** ** Trimming keeps a contiguous part *)

Lemma occurs_cons :
  forall pat c s, occurs pat s = true -> occurs pat (c :: s) = true.
Proof.
  intros pat c s H. simpl. rewrite H. apply orb_true_r.
Qed.

Lemma is_prefix_app :
  forall pat a b, is_prefix pat a = true -> is_prefix pat (a ++ b) = true.
Proof.
  induction pat as [| x pat IH]; intros a b H; [reflexivity |].
  destruct a as [| y a]; simpl in *; [discriminate H |].
  apply andb_true_iff in H. destruct H as [Hxy H].
  rewrite Hxy. simpl. now apply IH.
Qed.

Lemma occurs_app_l :
  forall pat a b, occurs pat a = true -> occurs pat (a ++ b) = true.
Proof.
  intros pat a b. induction a as [| c a IH]; intro H.
  - simpl in H. rewrite orb_false_r in H.
    destruct pat; [| discriminate H].
    destruct b; reflexivity.
  - simpl in H. apply orb_true_iff in H. destruct H as [H | H].
    + change (occurs pat ((c :: a) ++ b))
        with (is_prefix pat ((c :: a) ++ b) || occurs pat (a ++ b)).
      now rewrite (is_prefix_app _ _ _ H).
    + change (occurs pat ((c :: a) ++ b))
        with (is_prefix pat ((c :: a) ++ b) || occurs pat (a ++ b)).
      rewrite (IH H). apply orb_true_r.
Qed.

Lemma trim_start_suffix :
  forall pat s, occurs pat (trim_start s) = true -> occurs pat s = true.
Proof.
  intros pat s. induction s as [| c tl IH]; intro H; [exact H |].
  simpl in H. destruct (Quiz.is_space c); [| exact H].
  apply occurs_cons. now apply IH.
Qed.

Lemma trim_end_prefix : forall s, exists rest, s = trim_end s ++ rest.
Proof.
  induction s as [| c tl [rest IH]]; [now exists [] |].
  simpl. destruct (trim_end tl) as [| r0 r] eqn:Hr.
  - destruct (Quiz.is_space c).
    + now exists (c :: tl).
    + exists tl. reflexivity.
  - exists rest. simpl. simpl in IH. now rewrite <- IH.
Qed.

Lemma trim_part :
  forall pat s, occurs pat (trim s) = true -> occurs pat s = true.
Proof.
  intros pat s H. apply trim_start_suffix.
  destruct (trim_end_prefix (trim_start s)) as [rest Hr].
  rewrite Hr. now apply occurs_app_l.
Qed.

(** Whatever the model returns, the text handed to [JSON.parse] contains
    no three backticks in a row: no code fence is left in it, not even one
    pieced together from the remains of others. *)
Theorem sanitized_text_has_no_fence :
  forall jsonText : text, occurs fence (sanitize jsonText) = false.
Proof.
  intro jsonText. unfold sanitize.
  destruct (occurs fence
              (trim (replace_all fence (replace_all fence_json jsonText))))
    eqn:H; [| reflexivity].
  apply trim_part in H. unfold replace_all in H at 1.
  rewrite (replace_all_fence_bounded _ _ (Nat.le_refl _)) in H.
  discriminate H.
Qed.

(** ** Fenced and plain JSON *)

Lemma space_is_no_tick :
  forall ws, all_space ws = true -> tick_free ws = true.
Proof.
  induction ws as [| c ws IH]; intro H; [reflexivity |].
  unfold all_space in H. cbn [forallb] in H. fold (all_space ws) in H.
  apply andb_true_iff in H. destruct H as [Hc Hws].
  unfold tick_free. cbn [forallb]. fold (tick_free ws).
  rewrite (IH Hws), andb_true_r.
  destruct (is_tick c) eqn:Ht; [| reflexivity].
  apply is_tick_eq in Ht. subst c. discriminate Hc.
Qed.

Lemma tick_free_app :
  forall a b, tick_free (a ++ b) = tick_free a && tick_free b.
Proof. intros a b. unfold tick_free. apply forallb_app. Qed.

Lemma strip_tick_free :
  forall pat y z,
    tick_free y = true ->
    strip (tick :: pat) 0 (y ++ z) = y ++ strip (tick :: pat) 0 z.
Proof.
  intros pat y z. induction y as [| c y IH]; intro H; [reflexivity |].
  unfold tick_free in H. cbn [forallb] in H. fold (tick_free y) in H.
  apply andb_true_iff in H. destruct H as [Hc Hy].
  apply negb_true_iff in Hc. unfold is_tick in Hc.
  change ((c :: y) ++ z) with (c :: (y ++ z)).
  rewrite strip_miss.
  - now rewrite (IH Hy).
  - cbn [is_prefix]. now rewrite Hc.
Qed.

Lemma trim_start_spaces :
  forall ws x, all_space ws = true -> trim_start (ws ++ x) = trim_start x.
Proof.
  induction ws as [| c ws IH]; intros x H; [reflexivity |].
  simpl in *. apply andb_true_iff in H. destruct H as [Hc Hws].
  rewrite Hc. now apply IH.
Qed.

Lemma trim_end_spaces :
  forall ws, all_space ws = true -> trim_end ws = [].
Proof.
  induction ws as [| c ws IH]; intro H; [reflexivity |].
  simpl in *. apply andb_true_iff in H. destruct H as [Hc Hws].
  now rewrite (IH Hws), Hc.
Qed.

Lemma trim_end_app_spaces :
  forall x ws, all_space ws = true -> trim_end (x ++ ws) = trim_end x.
Proof.
  induction x as [| c x IH]; intros ws H; simpl.
  - now apply trim_end_spaces.
  - now rewrite (IH ws H).
Qed.

Lemma trim_start_app :
  forall b w,
    trim_start (b ++ w) =
      if all_space b then trim_start w else trim_start b ++ w.
Proof.
  induction b as [| c b IH]; intro w; [reflexivity |].
  simpl. destruct (Quiz.is_space c); simpl; [apply IH | reflexivity].
Qed.

Lemma trim_start_all_space :
  forall b, all_space b = true -> trim_start b = [].
Proof.
  intros b H. rewrite <- (app_nil_r b) at 1.
  now rewrite trim_start_spaces.
Qed.

Lemma trim_padding :
  forall ws1 b ws2,
    all_space ws1 = true -> all_space ws2 = true ->
    trim (ws1 ++ b ++ ws2) = trim b.
Proof.
  intros ws1 b ws2 H1 H2. unfold trim.
  rewrite (trim_start_spaces _ _ H1), trim_start_app.
  destruct (all_space b) eqn:Hb.
  - rewrite (trim_start_all_space _ H2), (trim_start_all_space _ Hb).
    reflexivity.
  - now apply trim_end_app_spaces.
Qed.

Lemma replace_json_tick_free :
  forall y z,
    tick_free y = true ->
    strip fence_json 0 (y ++ z) = y ++ strip fence_json 0 z.
Proof.
  intros y z H.
  exact (strip_tick_free [tick; tick; "j"; "s"; "o"; "n"]%char y z H).
Qed.

Lemma replace_fence_tick_free :
  forall y z,
    tick_free y = true ->
    strip fence 0 (y ++ z) = y ++ strip fence 0 z.
Proof.
  intros y z H. exact (strip_tick_free [tick; tick] y z H).
Qed.

Lemma replace_json_opening :
  forall x, strip fence_json 0 (fence_json ++ x) = strip fence_json 0 x.
Proof. reflexivity. Qed.

(** A text that holds no backtick comes out of the cleaning trimmed and
    otherwise untouched, whether the model returned it bare or wrapped it
    in a [json] code fence with white space around it. *)
Theorem fenced_json_is_unwrapped :
  forall body : text,
    tick_free body = true ->
    sanitize body = trim body /\
    forall ws1 ws2 : text,
      all_space ws1 = true -> all_space ws2 = true ->
      sanitize (fence_json ++ ws1 ++ body ++ ws2 ++ fence) = trim body.
Proof.
  intros body Hb. split.
  - unfold sanitize, replace_all.
    rewrite <- (app_nil_r body) at 1.
    rewrite (replace_json_tick_free body [] Hb).
    change (strip fence_json 0 []) with (@nil ascii).
    rewrite (replace_fence_tick_free body [] Hb).
    change (strip fence 0 []) with (@nil ascii).
    now rewrite !app_nil_r.
  - intros ws1 ws2 H1 H2.
    assert (Hy : tick_free (ws1 ++ body ++ ws2) = true).
    { rewrite !tick_free_app, Hb, !space_is_no_tick by assumption.
      reflexivity. }
    unfold sanitize, replace_all.
    rewrite replace_json_opening.
    replace (ws1 ++ body ++ ws2 ++ fence)
      with ((ws1 ++ body ++ ws2) ++ fence)
      by now rewrite <- !app_assoc.
    rewrite (replace_json_tick_free _ fence Hy).
    change (strip fence_json 0 fence) with fence.
    rewrite (replace_fence_tick_free _ fence Hy).
    change (strip fence 0 fence) with (@nil ascii).
    rewrite app_nil_r. now apply trim_padding.
Qed.

(** ** Instances *)

Definition wrapped : text :=
  list_ascii_of_string
    "```json
{ questions: [1, 2] }
```".

Example wrapped_is_unwrapped :
  string_of_list_ascii (sanitize wrapped) = "{ questions: [1, 2] }"%string.
Proof. reflexivity. Qed.

(** Removing the inner opening fence pieces a new one together from what
    surrounds it; the second pass removes its backticks and leaves the
    label. *)
Example fences_within_fences :
  sanitize (list_ascii_of_string "``````jsonjson{}`") =
  list_ascii_of_string "json{}`".
Proof. reflexivity. Qed.

Lemma fenced_json_is_unwrapped_witness :
  tick_free (list_ascii_of_string "{ }") = true /\
  sanitize (fence_json ++ [" "%char] ++ list_ascii_of_string "{ }"
              ++ [" "%char; " "%char] ++ fence)
  = list_ascii_of_string "{ }".
Proof.
  split; [reflexivity |].
  exact (proj2 (fenced_json_is_unwrapped (list_ascii_of_string "{ }")
                  eq_refl)
           [" "%char] [" "%char; " "%char] eq_refl eq_refl).
Defined.

End Trivia.

(* ================================================================== *)
(** * The application shell: game mode and saved configuration *)
(* ================================================================== *)

Module App.

Inductive GameMode : Type := LOBBY | VISUAL_TRIVIA | VOICE_CHAT.

(** [localStorage]: what [getItem] returns for each key. *)
Definition Storage : Type := string -> option string.

Definition setItem (key value : string) (st : Storage) : Storage :=
  fun k => if String.eqb k key then Some value else st k.

Definition config_key : string := "mindspark_config".
Definition leaderboard_key : string := "trivia_leaderboard".

Section Config.

(** The configuration object is whatever [JSON.parse] returns; [JSON.parse]
    and [JSON.stringify] belong to the platform and are parameters
    ([None]: [JSON.parse] throws).  [defaults] is the literal
    [{topic: 'Space Exploration', difficulty: 'Medium',
      personality: HostPersonality.EXCITED}]. *)
Variable Config : Type.
Variable parse : string -> option Config.
Variable stringify : Config -> string.
Variable defaults : Config.

Record State : Type := mkState {
  mode : GameMode;
  gameConfig : Config;
  storage : Storage
}.

(** The initialiser of [gameConfig]: the saved text, if there is one, it
    is not empty and it parses; the defaults otherwise. *)
Definition initialConfig (st : Storage) : Config :=
  match st config_key with
  | Some saved =>
      if Playback.truthy saved then
        match parse saved with
        | Some config => config
        | None => defaults
        end
      else defaults
  | None => defaults
  end.

(** The first render. *)
Definition mount (st : Storage) : State :=
  mkState LOBBY (initialConfig st) st.

(** [handleStartGame] *)
Definition handleStartGame (selectedMode : GameMode) (config : Config)
  (s : State) : State :=
  mkState selectedMode config
          (setItem config_key (stringify config) (storage s)).

(** [handleExit] *)
Definition handleExit (s : State) : State :=
  mkState LOBBY (gameConfig s) (storage s).

Inductive Event : Type :=
| StartGame (selectedMode : GameMode) (config : Config)
| Exit.

Definition step (e : Event) (s : State) : State :=
  match e with
  | StartGame m c => handleStartGame m c s
  | Exit => handleExit s
  end.

Definition run (evs : list Event) (s : State) : State :=
  fold_left (fun acc e => step e acc) evs s.

(** The configuration of the last game started, if any. *)
Fixpoint last_started (evs : list Event) (earlier : option Config)
  : option Config :=
  match evs with
  | [] => earlier
  | StartGame _ c :: tl => last_started tl (Some c)
  | Exit :: tl => last_started tl earlier
  end.

Lemma last_started_before :
  forall evs earlier,
    last_started evs earlier =
      match last_started evs None with
      | Some c => Some c
      | None => earlier
      end.
Proof.
  induction evs as [| [m c |] evs IH]; intros earlier; simpl.
  - reflexivity.
  - rewrite (IH (Some c)). destruct (last_started evs None); reflexivity.
  - apply IH.
Qed.

Lemma run_last_started :
  forall evs s,
    storage (run evs s) config_key =
      match last_started evs None with
      | Some c => Some (stringify c)
      | None => storage s config_key
      end /\
    (forall k, String.eqb k config_key = false ->
               storage (run evs s) k = storage s k).
Proof.
  induction evs as [| [m c |] evs IH]; intro s; simpl.
  - split; reflexivity.
  - destruct (IH (handleStartGame m c s)) as [Hk Ho]. split.
    + rewrite Hk, (last_started_before evs (Some c)).
      destruct (last_started evs None); [reflexivity |].
      simpl. unfold setItem. now rewrite String.eqb_refl.
    + intros k Hne. rewrite (Ho k Hne). simpl. unfold setItem.
      now rewrite Hne.
  - destruct (IH (handleExit s)) as [Hk Ho]. split.
    + exact Hk.
    + exact Ho.
Qed.

(** The configuration of the last game started is the one the application
    starts with after a reload, provided [JSON.parse] gives back what
    [JSON.stringify] wrote; when no game was started the stored
    configuration is untouched.  Starting and leaving games never touches
    any other storage key, the leaderboard in particular. *)
Theorem configuration_survives_reload :
  forall (st : Storage) (evs : list Event) (config : Config),
    last_started evs None = Some config ->
    parse (stringify config) = Some config ->
    stringify config <> EmptyString ->
    gameConfig (mount (storage (run evs (mount st)))) = config /\
    mode (mount (storage (run evs (mount st)))) = LOBBY /\
    storage (run evs (mount st)) leaderboard_key = st leaderboard_key.
Proof.
  intros st evs config Hlast Hparse Hne.
  destruct (run_last_started evs (mount st)) as [Hk Ho].
  rewrite Hlast in Hk.
  split; [| split].
  - simpl. unfold initialConfig. rewrite Hk.
    destruct (stringify config) eqn:Hs; [contradiction |].
    simpl. now rewrite Hparse.
  - reflexivity.
  - rewrite (Ho leaderboard_key eq_refl). reflexivity.
Qed.

(** A stored configuration that does not parse, an empty one and a
    missing one all give the defaults. *)
Theorem unreadable_configuration_gives_defaults :
  forall st : Storage,
    match st config_key with
    | Some saved => saved = EmptyString \/ parse saved = None
    | None => True
    end ->
    gameConfig (mount st) = defaults.
Proof.
  intros st H. simpl. unfold initialConfig.
  destruct (st config_key) as [saved |]; [| reflexivity].
  destruct H as [-> | H]; [reflexivity |].
  destruct (Playback.truthy saved); [| reflexivity].
  now rewrite H.
Qed.

End Config.

(** ** An instance: the topic alone as configuration, stored behind an
    opening brace. *)

Local Open Scope string_scope.

Definition parse_example (s : string) : option string :=
  match s with
  | String "{" rest => Some rest
  | _ => None
  end.

Definition stringify_example (topic : string) : string := String "{" topic.

Definition empty_storage : Storage := fun _ => None.

Lemma configuration_survives_reload_witness :
  last_started string
    [StartGame string VOICE_CHAT "Cats"; Exit string;
     StartGame string VISUAL_TRIVIA "Owls"; Exit string] None
  = Some "Owls"%string /\
  parse_example (stringify_example "Owls") = Some "Owls"%string /\
  stringify_example "Owls" <> EmptyString /\
  gameConfig string
    (mount string parse_example "Space Exploration"
       (storage string
          (run string stringify_example
             [StartGame string VOICE_CHAT "Cats"; Exit string;
              StartGame string VISUAL_TRIVIA "Owls"; Exit string]
             (mount string parse_example "Space Exploration" empty_storage))))
  = "Owls"%string.
Proof.
  split; [reflexivity |]. split; [reflexivity |]. split; [discriminate |].
  exact (proj1 (configuration_survives_reload string parse_example
                  stringify_example "Space Exploration" empty_storage
                  [StartGame string VOICE_CHAT "Cats"; Exit string;
                   StartGame string VISUAL_TRIVIA "Owls"; Exit string]
                  "Owls" eq_refl eq_refl ltac:(discriminate))).
Defined.

Lemma unreadable_configuration_gives_defaults_witness :
  gameConfig string
    (mount string parse_example "Space Exploration"
       (setItem config_key "not json" empty_storage))
  = "Space Exploration"%string.
Proof.
  apply (unreadable_configuration_gives_defaults string parse_example
           "Space Exploration"
           (setItem config_key "not json" empty_storage)).
  right. reflexivity.
Defined.

End App.

(* ================================================================== *)
(** * The waveform drawn by the audio visualizer *)
(* ================================================================== *)

Module Visualizer.

Open Scope Q_scope.

(** The points of the path one call of [draw] strokes.  Coordinates are
    exact rationals here, floating point numbers in the source. *)
Definition Point : Type := (Q * Q)%type.

(** The loop over [dataArray], a [Uint8Array]:
    [v = dataArray[i] / 128.0; y = (v * canvas.height) / 2;
     moveTo or lineTo (x, y); x += sliceWidth]. *)
Fixpoint polyline (sliceWidth height x : Q) (dataArray : list Byte.byte)
  : list Point :=
  match dataArray with
  | [] => []
  | d :: tl =>
      let v := inject_Z (Z.of_N (Byte.to_N d)) / 128 in
      let y := (v * height) / 2 in
      (x, y) :: polyline sliceWidth height (x + sliceWidth) tl
  end.

(** One call of [draw]: the path, and whether the next animation frame
    was requested.  Inactive, the flat line is drawn and the loop stops. *)
Definition draw (isActive : bool) (width height : Q)
  (dataArray : list Byte.byte) : list Point * bool :=
  if negb isActive
  then ([(0, height / 2); (width, height / 2)], false)
  else
    let bufferLength := inject_Z (Z.of_nat (List.length dataArray)) in
    let sliceWidth := (width * 1) / bufferLength in
    (polyline sliceWidth height 0 dataArray ++ [(width, height / 2)], true).

Definition inside (width height : Q) (p : Point) : Prop :=
  0 <= fst p <= width /\ 0 <= snd p < height.

Lemma sample_height :
  forall (d : Byte.byte) (height : Q),
    0 < height ->
    0 <= (inject_Z (Z.of_N (Byte.to_N d)) / 128 * height) / 2 < height.
Proof.
  intros d height Hh.
  set (q := inject_Z (Z.of_N (Byte.to_N d))).
  assert (Hlo : 0 <= q).
  { unfold q. change 0 with (inject_Z 0). rewrite <- Zle_Qle. lia. }
  assert (Hhi : q <= 255).
  { unfold q. change 255 with (inject_Z 255). rewrite <- Zle_Qle.
    pose proof (Byte.to_N_bounded d). lia. }
  assert (E : q / 128 * height / 2 == (q * height) * (1 # 256)) by field.
  rewrite E.
  assert (P : 0 <= q * height) by (apply Qmult_le_0_compat; lra).
  assert (U : q * height <= 255 * height)
    by (apply Qmult_le_compat_r; lra).
  split; lra.
Qed.

Lemma polyline_inside :
  forall (sliceWidth width height : Q) (dataArray : list Byte.byte) (x : Q),
    0 < height -> 0 <= sliceWidth -> 0 <= x ->
    x + inject_Z (Z.of_nat (List.length dataArray)) * sliceWidth
      <= width + sliceWidth ->
    Forall (inside width height) (polyline sliceWidth height x dataArray).
Proof.
  intros sw width height dataArray.
  induction dataArray as [| d tl IH]; intros x Hh Hsw Hx Hend; simpl.
  - constructor.
  - assert (Hlen : inject_Z (Z.of_nat (List.length (d :: tl)))
                   == 1 + inject_Z (Z.of_nat (List.length tl))).
    { simpl List.length. rewrite Nat2Z.inj_succ, <- Z.add_1_l.
      now rewrite inject_Z_plus. }
    rewrite Hlen in Hend.
    assert (Hk : 0 <= inject_Z (Z.of_nat (List.length tl))).
    { change 0 with (inject_Z 0). rewrite <- Zle_Qle. lia. }
    assert (Hprod : 0 <= inject_Z (Z.of_nat (List.length tl)) * sw)
      by now apply Qmult_le_0_compat.
    constructor.
    + split; simpl; [split; lra | now apply sample_height].
    + apply IH; try assumption; lra.
Qed.

(** Every point [draw] strokes lies on the canvas, whatever the analyser
    delivers: the x coordinates run from 0 to the width, the y coordinates
    stay at or above 0 and strictly below the height.  The next frame is
    requested exactly when the visualizer is active. *)
Theorem waveform_stays_on_canvas :
  forall (isActive : bool) (width height : Q) (dataArray : list Byte.byte),
    0 < width -> 0 < height ->
    Forall (inside width height)
      (fst (draw isActive width height dataArray)) /\
    snd (draw isActive width height dataArray) = isActive.
Proof.
  intros isActive width height dataArray Hw Hh.
  assert (Hmid : inside width height (width, height / 2)).
  { unfold inside. simpl.
    assert (E : height / 2 == height * (1 # 2)) by field.
    rewrite E. repeat split; lra. }
  unfold draw. destruct isActive; simpl.
  - split; [| reflexivity].
    apply Forall_app. split; [| now constructor].
    destruct dataArray as [| d tl]; [constructor |].
    set (n := inject_Z (Z.of_nat (List.length (d :: tl)))).
    assert (Hn : 0 < n).
    { unfold n. change 0 with (inject_Z 0). rewrite <- Zlt_Qlt.
      simpl List.length. lia. }
    assert (Hslice : n * (width * 1 / n) == width) by (field; lra).
    assert (Hsw : 0 <= width * 1 / n).
    { apply Qle_shift_div_l; [exact Hn | lra]. }
    apply polyline_inside; try assumption; try lra.
    fold n. lra.
  - split; [| reflexivity].
    constructor; [| now constructor].
    unfold inside. simpl.
    assert (E : height / 2 == height * (1 # 2)) by field.
    rewrite E. repeat split; lra.
Qed.

(** The canvas of the component, 300 by 100, and three samples: the
    lowest, silence, the highest. *)
Lemma waveform_stays_on_canvas_witness :
  0 < 300 /\ 0 < 100 /\
  map (fun p => (Qred (fst p), Qred (snd p)))
    (fst (draw true 300 100 [Byte.x00; Byte.x80; Byte.xff]))
  = [(0, 0); (100, 50); (200, 6375 # 64); (300, 50)] /\
  Forall (inside 300 100)
    (fst (draw true 300 100 [Byte.x00; Byte.x80; Byte.xff])).
Proof.
  split; [reflexivity |]. split; [reflexivity |].
  split; [vm_compute; reflexivity |].
  exact (proj1 (waveform_stays_on_canvas true 300 100
                  [Byte.x00; Byte.x80; Byte.xff] eq_refl eq_refl)).
Defined.

End Visualizer.
